(** * Huffman: a shallow embedding of [huffman.py]

    The development follows the Python module section by section: the node
    class [NoHuffman], the frequency table, the construction of the tree with
    a priority queue, the code table, the bit packer, and the container
    written by [compactar] and read back by [descompactar_arquivo].

    Conventions.
    - A byte (an [int] in [range(256)] obtained by iterating over [bytes]) is
      a [Byte.byte]; a [bytes] object is a [list byte].
    - A Python [int] is a [Z].
    - A Python [str] is a [list ascii]; the bit strings of the program are
      the strings over the two characters ["0"] and ["1"].
    - A [dict] is an association list in insertion order with pairwise
      distinct keys: iteration order decides both the shape of the tree and
      the order of the entries in the container.
    - A raised exception is the [Erro] case of [resultado]. *)

From Stdlib Require Import ZArith NArith List Ascii Bool Lia.
From Stdlib.Strings Require Import Byte.
From Stdlib Require Import Permutation Sorted FinFun.
Import ListNotations.

Local Open Scope char_scope.
Local Open Scope Z_scope.
Local Set Warnings "-register-all".

(* ================================================================== *)
(** ** Exceptions and results *)

(** The exceptions the module raises, one constructor per [raise] site (the
    messages are kept apart so that theorems can tell the sites from one
    another), plus the exceptions raised by the built-ins it calls. *)
Inductive erro : Type :=
| NenhumArquivoCarregado   (* ValueError: Nenhum arquivo carregado *)
| ArquivoVazio             (* ValueError: Arquivo vazio *)
| FormatoInvalido          (* ValueError: .huff invalido (magic) *)
| CorrompidoTamanhoTabela  (* ValueError: corrompido (tamanho da tabela) *)
| CorrompidoEntradaTabela  (* ValueError: corrompido (entrada de tabela) *)
| CorrompidoPadding        (* ValueError: corrompido (padding) *)
| CorrompidoSemDados       (* ValueError: corrompido (sem dados) *)
| NavegacaoInvalida        (* ValueError: navegacao invalida na arvore *)
| OverflowError            (* int.to_bytes: int too big to convert *)
| KeyError                 (* dict[k] on a missing key *)
| IndexError               (* list[0] on an empty list *)
| AttributeError           (* attribute access on None *)
| TypeError                (* subscript of None *)
| LiteralInvalido          (* int(s, 2) on a string that is not binary *)
| ByteForaDoIntervalo.     (* bytearray.append outside range(256) *)

Inductive resultado (A : Type) : Type :=
| Ok (a : A)
| Erro (e : erro).
Arguments Ok {A} a.
Arguments Erro {A} e.

(** State and exception monad: a computation over a state [S] returns a
    result together with the state it leaves, also when it raises. *)
Definition M (S A : Type) : Type := S -> resultado A * S.

Definition ret {S A} (a : A) : M S A := fun s => (Ok a, s).
Definition raise {S A} (e : erro) : M S A := fun s => (Erro e, s).
Definition bind {S A B} (m : M S A) (k : A -> M S B) : M S B :=
  fun s => match m s with
           | (Ok a, s') => k a s'
           | (Erro e, s') => (Erro e, s')
           end.
Definition get {S} : M S S := fun s => (Ok s, s).
Definition put {S} (s : S) : M S unit := fun _ => (Ok tt, s).
Definition lift {S A} (r : resultado A) : M S A := fun s => (r, s).

Notation "x <- m ;; k" := (bind m (fun x => k))
  (at level 61, m at next level, right associativity).
Notation "m ;;; k" := (bind m (fun _ => k))
  (at level 61, right associativity).
Notation "' pat <- m ;; k" := (bind m (fun x => let 'pat := x in k))
  (at level 61, pat pattern, m at next level, right associativity).

(* ================================================================== *)
(** ** Dictionaries *)

Section Dict.
Context {V : Type}.

Definition dict : Type := list (byte * V).

(** [d.get(k)], [None] when the key is absent. *)
Fixpoint dict_get (d : dict) (k : byte) : option V :=
  match d with
  | [] => None
  | (k', v) :: r => if Byte.eqb k' k then Some v else dict_get r k
  end.

(** [d[k] = v]: an existing key keeps its position, a new key goes last. *)
Fixpoint dict_set (k : byte) (v : V) (d : dict) : dict :=
  match d with
  | [] => [(k, v)]
  | (k', v') :: r =>
      if Byte.eqb k' k then (k', v) :: r else (k', v') :: dict_set k v r
  end.

Definition dict_keys (d : dict) : list byte := map fst d.
Definition dict_values (d : dict) : list V := map snd d.
End Dict.
Arguments dict V : clear implicits.

(* ================================================================== *)
(** ** Estruturas de dados: [NoHuffman] *)

Inductive NoHuffman : Type :=
  mkNo { freq : Z;
         simbolo : option byte;
         esquerdo : option NoHuffman;
         direito : option NoHuffman }.

Definition eh_folha (no : NoHuffman) : bool :=
  match simbolo no with Some _ => true | None => false end.

(** [NoHuffman.__lt__]. *)
Definition no_lt (a b : NoHuffman) : bool := freq a <? freq b.

(* ================================================================== *)
(** ** The priority queue

    [heapq] is Python's standard library, not code of this repository.  The
    program uses it only through [heappush], [heappop], [len(heap)] and
    [heap[0]], on entries [(freq, contador, no)].  Its contract is that
    [heap[0]] is a least entry and that [heappop] removes and returns it.
    The queue is modelled by the list of its entries in ascending order:
    [heappush] inserts in order, [heappop] takes the head.  Every entry
    carries a different [contador] (see [contadores_crescentes]), so the
    least entry is unique and the head of the list is that entry (see
    [fila_ordenada] and [heappop_minimo]): the model returns what any heap
    layout returns. *)

Definition entrada : Type := (Z * Z * NoHuffman)%type.

(** Python's [<] on the tuples: the first differing component decides.  The
    node comparison is reached only by entries with the same counter. *)
Definition entrada_lt (x y : entrada) : bool :=
  let '(f1, c1, n1) := x in
  let '(f2, c2, n2) := y in
  if negb (f1 =? f2) then f1 <? f2
  else if negb (c1 =? c2) then c1 <? c2
  else no_lt n1 n2.

Fixpoint heappush (heap : list entrada) (x : entrada) : list entrada :=
  match heap with
  | [] => [x]
  | y :: r => if entrada_lt x y then x :: y :: r else y :: heappush r x
  end.

Definition heappop (heap : list entrada) : option (entrada * list entrada) :=
  match heap with
  | [] => None
  | x :: r => Some (x, r)
  end.

(* ================================================================== *)
(** ** 2) Tabela de frequencias *)

(** The loop of [gerar_tabela_frequencia]:
    [for b in bytes_dados: freq[b] = freq.get(b, 0) + 1]. *)
Definition contar (freq : dict Z) (b : byte) : dict Z :=
  dict_set b (match dict_get freq b with Some n => n | None => 0 end + 1) freq.

Definition tabela_de (bytes_dados : list byte) : dict Z :=
  fold_left contar bytes_dados [].

(* ================================================================== *)
(** ** 3) Construcao da arvore *)

(** The first loop of [construir_arvore]: one leaf per item of the table,
    pushed with the running counter. *)
Fixpoint empilhar_folhas (itens : dict Z) (heap : list entrada) (contador : Z)
  : list entrada * Z :=
  match itens with
  | [] => (heap, contador)
  | (b, fr) :: r =>
      let no := mkNo fr (Some b) None None in
      empilhar_folhas r (heappush heap (fr, contador, no)) (contador + 1)
  end.

(** The [while len(heap) > 1] loop.  Each round takes two entries and puts
    one back, so [length heap] rounds are enough: [combinar] returns the
    heap as the loop leaves it, and [combinar_sai] shows that with that much
    [fuel] it is the loop condition, not the fuel, that ends the loop. *)
Fixpoint combinar (fuel : nat) (heap : list entrada) (contador : Z)
  : list entrada :=
  if (1 <? length heap)%nat then
    match fuel with
    | O => heap
    | S fuel' =>
        match heappop heap with
        | None => heap
        | Some ((freq1, _, no1), heap1) =>
            match heappop heap1 with
            | None => heap
            | Some ((freq2, _, no2), heap2) =>
                let pai := mkNo (freq1 + freq2) None (Some no1) (Some no2) in
                combinar fuel' (heappush heap2 (freq pai, contador, pai))
                         (contador + 1)
            end
        end
    end
  else heap.

(** [heap[0][2]]; an empty list raises [IndexError]. *)
Definition primeiro_no (heap : list entrada) : resultado NoHuffman :=
  match heap with
  | (_, _, no) :: _ => Ok no
  | [] => Erro IndexError
  end.

(** The body of [construir_arvore] once [self.tabela_freq] is known. *)
Definition arvore_de (tabela_freq : dict Z) : resultado NoHuffman :=
  match tabela_freq with
  | [] => Erro ArquivoVazio
  | _ =>
      let '(heap, contador) := empilhar_folhas tabela_freq [] 0 in
      if (length heap =? 1)%nat then
        match primeiro_no heap with
        | Ok unico_no => Ok (mkNo (freq unico_no) None (Some unico_no) None)
        | Erro e => Erro e
        end
      else
        primeiro_no (combinar (length heap) heap contador)
  end.

(* ================================================================== *)
(** ** Classe principal: the state of a [Huffman] object

    [self.texto] is the text of which [bytes_dados] is the UTF-8 encoding;
    no method below reads it, and it is left out. *)

Record Huffman : Type := mkHuffman {
  bytes_dados : option (list byte);
  tabela_freq : option (dict Z);
  raiz : option NoHuffman;
  codigos : option (dict (list ascii)) }.

(** [Huffman()]. *)
Definition novo : Huffman := mkHuffman None None None None.

(** The state [ler_arquivo] leaves for a file whose text encodes to
    [dados]: the bytes are stored and the three caches are reset. *)
Definition ler_arquivo (dados : list byte) : M Huffman unit :=
  fun _ => (Ok tt, mkHuffman (Some dados) None None None).

Definition set_tabela_freq (t : dict Z) (h : Huffman) : Huffman :=
  mkHuffman (bytes_dados h) (Some t) (raiz h) (codigos h).
Definition set_raiz (r : NoHuffman) (h : Huffman) : Huffman :=
  mkHuffman (bytes_dados h) (tabela_freq h) (Some r) (codigos h).
Definition set_codigos (c : dict (list ascii)) (h : Huffman) : Huffman :=
  mkHuffman (bytes_dados h) (tabela_freq h) (raiz h) (Some c).

Definition gerar_tabela_frequencia : M Huffman (dict Z) :=
  self <- get ;;
  match bytes_dados self with
  | None => raise NenhumArquivoCarregado
  | Some bs =>
      let freq := tabela_de bs in
      put (set_tabela_freq freq self) ;;; ret freq
  end.

(** [if not self.tabela_freq] holds for [None] as for the empty dict. *)
Definition construir_arvore : M Huffman NoHuffman :=
  self <- get ;;
  (match tabela_freq self with
   | None => gerar_tabela_frequencia ;;; ret tt
   | Some _ => ret tt
   end) ;;;
  self <- get ;;
  match tabela_freq self with
  | None => raise ArquivoVazio
  | Some t =>
      r <- lift (arvore_de t) ;;
      put (set_raiz r self) ;;; ret r
  end.

(* ================================================================== *)
(** ** 4) Geracao da tabela de codigos *)

(** The inner function [_gerar_rec]; the dict [codigos] it closes over and
    mutates is threaded through the recursion. *)
Fixpoint _gerar_rec (no : NoHuffman) (caminho : list ascii)
  (codigos : dict (list ascii)) {struct no} : dict (list ascii) :=
  match no with
  | mkNo _ (Some s) _ _ =>
      dict_set s (match caminho with [] => ["0"] | _ => caminho end) codigos
  | mkNo _ None e d =>
      let codigos :=
        match e with
        | Some e' => _gerar_rec e' (caminho ++ ["0"]) codigos
        | None => codigos
        end in
      match d with
      | Some d' => _gerar_rec d' (caminho ++ ["1"]) codigos
      | None => codigos
      end
  end.

Definition gerar_codigos : M Huffman (dict (list ascii)) :=
  self <- get ;;
  (match raiz self with
   | None => construir_arvore ;;; ret tt
   | Some _ => ret tt
   end) ;;;
  self <- get ;;
  match raiz self with
  | None => raise AttributeError
  | Some r =>
      let codigos := _gerar_rec r [] [] in
      put (set_codigos codigos self) ;;; ret codigos
  end.

(* ================================================================== *)
(** ** Built-ins on integers, bytes and strings *)

Definition int_de (b : byte) : Z := Z.of_N (Byte.to_N b).

(** The byte of value [x mod 256]. *)
Definition byte_de (x : Z) : byte :=
  match Byte.of_N (Z.to_N (x mod 256)) with
  | Some b => b
  | None => x00
  end.

Fixpoint big_endian (n : nat) (x : Z) : list byte :=
  match n with
  | O => []
  | S n' => big_endian n' (x / 256) ++ [byte_de x]
  end.

(** [x.to_bytes(n, byteorder="big")]: unsigned, [OverflowError] when [x] is
    negative or does not fit in [n] bytes. *)
Definition to_bytes (n : nat) (x : Z) : resultado (list byte) :=
  if (0 <=? x) && (x <? 256 ^ Z.of_nat n) then Ok (big_endian n x)
  else Erro OverflowError.

(** [int.from_bytes(bs, byteorder="big")]. *)
Definition from_bytes (bs : list byte) : Z :=
  fold_left (fun acc b => acc * 256 + int_de b) bs 0.

(** [sum(d.values())]. *)
Definition soma (vs : list Z) : Z := fold_left Z.add vs 0.

(** [s[i:j]] for [0 <= i <= j]. *)
Definition fatia {A} (s : list A) (i j : nat) : list A :=
  firstn (j - i) (skipn i s).

(** [s[:-k]] for [k > 0]: a [k] beyond the length leaves nothing. *)
Definition sem_final {A} (s : list A) (k : nat) : list A :=
  firstn (length s - k) s.

(** [range(0, stop, passo)]. *)
Definition range_passo (stop passo : nat) : list nat :=
  map (fun k => (k * passo)%nat) (seq 0 ((stop + passo - 1) / passo)).

(** [int(s, 2)] on digit strings.  Python also accepts a sign, surrounding
    white space, a [0b] prefix and underscores between digits; the program
    never builds such a string, and any character other than a binary digit
    is rejected here. *)
Fixpoint int_base2_aux (acc : Z) (s : list ascii) : resultado Z :=
  match s with
  | [] => Ok acc
  | c :: r =>
      if Ascii.eqb c "0" then int_base2_aux (2 * acc) r
      else if Ascii.eqb c "1" then int_base2_aux (2 * acc + 1) r
      else Erro LiteralInvalido
  end.

Definition int_base2 (s : list ascii) : resultado Z :=
  match s with
  | [] => Erro LiteralInvalido
  | _ => int_base2_aux 0 s
  end.

(** [f"{b:08b}"]: the eight binary digits of a byte, most significant
    first. *)
Definition formatar_08b (b : byte) : list ascii :=
  map (fun i => if Z.testbit (int_de b) i then "1" else "0")
      [7; 6; 5; 4; 3; 2; 1; 0].

(* ================================================================== *)
(** ** 5) Compactacao *)

(** The loop of [_bits_para_bytes]:
    [for i in range(0, len(bits), 8): dados.append(int(bits[i:i+8], 2))]. *)
Fixpoint agrupar (bits : list ascii) (indices : list nat) (dados : list byte)
  : resultado (list byte) :=
  match indices with
  | [] => Ok dados
  | i :: r =>
      match int_base2 (fatia bits i (i + 8)) with
      | Erro e => Erro e
      | Ok v =>
          if (0 <=? v) && (v <? 256) then agrupar bits r (dados ++ [byte_de v])
          else Erro ByteForaDoIntervalo
      end
  end.

Definition _bits_para_bytes (bits : list ascii) : resultado (list byte * Z) :=
  if (length bits =? 0)%nat then Ok ([], 0)
  else
    let padding := (8 - Z.of_nat (length bits) mod 8) mod 8 in
    let bits := bits ++ repeat "0" (Z.to_nat padding) in
    match agrupar bits (range_passo (length bits) 8) [] with
    | Erro e => Erro e
    | Ok dados => Ok (dados, padding)
    end.

Definition _bytes_para_bits (dados : list byte) : list ascii :=
  flat_map formatar_08b dados.

(** ["".join(self.codigos[b] for b in self.bytes_dados)]. *)
Fixpoint codificar (codigos : dict (list ascii)) (bs : list byte)
  : resultado (list ascii) :=
  match bs with
  | [] => Ok []
  | b :: r =>
      match dict_get codigos b with
      | None => Erro KeyError
      | Some c =>
          match codificar codigos r with
          | Ok s => Ok (c ++ s)
          | Erro e => Erro e
          end
      end
  end.

(** The output file of [compactar]: [None] while the path holds no file,
    otherwise its content. *)
Definition arquivo : Type := option (list byte).

Definition write (bs : list byte) : M (list byte) unit :=
  fun f => (Ok tt, f ++ bs).

Definition HUF1 : list byte := [x48; x55; x46; x31].

(** [for b, fr in freq.items(): f.write(b.to_bytes(1, ...));
    f.write(fr.to_bytes(4, ...))].  A key is a byte, so its [to_bytes(1)]
    is that byte. *)
Fixpoint escrever_tabela (itens : dict Z) : M (list byte) unit :=
  match itens with
  | [] => ret tt
  | (b, fr) :: r =>
      write [b] ;;;
      fr_bytes <- lift (to_bytes 4 fr) ;;
      write fr_bytes ;;;
      escrever_tabela r
  end.

(** The body of the [with open(caminho_saida, "wb") as f] block. *)
Definition escrever_container (freq : dict Z) (padding : Z)
  (dados_codificados : list byte) : M (list byte) unit :=
  write HUF1 ;;;
  n_bytes <- lift (to_bytes 4 (Z.of_nat (length freq))) ;;
  write n_bytes ;;;
  escrever_tabela freq ;;;
  padding_byte <- lift (to_bytes 1 padding) ;;
  write padding_byte ;;;
  write dados_codificados.

(** Lifting a method of the object to the world of [compactar]: the object
    and the output file. *)
Definition no_objeto {A} (m : M Huffman A) : M (Huffman * arquivo) A :=
  fun w => let '(r, h) := m (fst w) in (r, (h, snd w)).

(** [with open(caminho_saida, "wb") as f]: the file is created or truncated,
    and what was written stays in it when the block raises. *)
Definition com_arquivo_wb {A} (m : M (list byte) A) : M (Huffman * arquivo) A :=
  fun w => let '(r, f) := m [] in (r, (fst w, Some f)).

Definition compactar : M (Huffman * arquivo) unit :=
  self <- no_objeto get ;;
  match bytes_dados self with
  | None => raise NenhumArquivoCarregado
  | Some bs =>
      (match tabela_freq self with
       | None => no_objeto gerar_tabela_frequencia ;;; ret tt
       | Some _ => ret tt
       end) ;;;
      self <- no_objeto get ;;
      (match raiz self with
       | None => no_objeto construir_arvore ;;; ret tt
       | Some _ => ret tt
       end) ;;;
      self <- no_objeto get ;;
      (match codigos self with
       | None => no_objeto gerar_codigos ;;; ret tt
       | Some _ => ret tt
       end) ;;;
      self <- no_objeto get ;;
      match codigos self, tabela_freq self with
      | Some cod, Some freq =>
          bits <- lift (codificar cod bs) ;;
          '(dados_codificados, padding) <- lift (_bits_para_bytes bits) ;;
          com_arquivo_wb (escrever_container freq padding dados_codificados)
      | _, _ => raise TypeError
      end
  end.

(** [encode]: a fresh object loads [dados] and compacts it to a path that
    holds [saida] before the call. *)
Definition encode (dados : list byte) (saida : arquivo)
  : resultado unit * (Huffman * arquivo) :=
  (no_objeto (ler_arquivo dados) ;;; compactar) (novo, saida).

(* ================================================================== *)
(** ** 6) Descompactacao *)

(** [f.read(k)] on a file open for reading, whose state is what is left to
    read: at most [k] bytes, fewer at the end of the file. *)
Definition read (k : nat) : M (list byte) (list byte) :=
  fun f => (Ok (firstn k f), skipn k f).

(** [f.read()]. *)
Definition read_tudo : M (list byte) (list byte) :=
  fun f => (Ok f, []).

Fixpoint bytes_eqb (a b : list byte) : bool :=
  match a, b with
  | [], [] => true
  | x :: a', y :: b' => Byte.eqb x y && bytes_eqb a' b'
  | _, _ => false
  end.

(** [for _ in range(n)]: each round reads one byte and four bytes, and
    raises unless all five were there.  The recursion is on what is left of
    the file, every round consuming five bytes. *)
Fixpoint ler_entradas (n : Z) (tabela : dict Z) (f : list byte) {struct f}
  : resultado (dict Z) * list byte :=
  if n <=? 0 then (Ok tabela, f)
  else
    match f with
    | s :: b3 :: b2 :: b1 :: b0 :: f' =>
        let fr := from_bytes [b3; b2; b1; b0] in
        ler_entradas (n - 1) (dict_set s fr tabela) f'
    | _ => (Erro CorrompidoEntradaTabela, [])
    end.

(** The [with open(caminho_huff, "rb") as f] block, first its header: the
    magic, the number of entries, the frequency table and the padding. *)
Definition ler_cabecalho : M (list byte) (dict Z * Z) :=
  magic <- read 4 ;;
  if negb (bytes_eqb magic HUF1) then raise FormatoInvalido
  else
    n_bytes <- read 4 ;;
    if (length n_bytes <? 4)%nat then raise CorrompidoTamanhoTabela
    else
      let n := from_bytes n_bytes in
      tabela_freq <- ler_entradas n [] ;;
      padding_byte <- read 1 ;;
      match padding_byte with
      | [] => raise CorrompidoPadding
      | p :: _ => ret (tabela_freq, int_de p)
      end.

(** The whole block: the header, then the coded data and its check. *)
Definition ler_container : M (list byte) (dict Z * Z * list byte) :=
  '(tabela_freq, padding) <- ler_cabecalho ;;
  dados_codificados <- read_tudo ;;
  if (length dados_codificados =? 0)%nat
     && (0 <? soma (dict_values tabela_freq))
  then raise CorrompidoSemDados
  else ret (tabela_freq, padding, dados_codificados).

(** [if padding > 0: bits = bits[:-padding]]. *)
Definition aparar (bits : list ascii) (padding : Z) : list ascii :=
  if 0 <? padding then sem_final bits (Z.to_nat padding) else bits.

(** The decoding loop, [for bit in bits], with its [break]; [emitidos] is
    the bytearray [resultado]. *)
Fixpoint percorrer (raiz : NoHuffman) (total_bytes_orig : Z)
  (bits : list ascii) (no_atual : NoHuffman) (emitidos : list byte)
  : resultado (list byte) :=
  match bits with
  | [] => Ok emitidos
  | bit :: bits' =>
      match (if Ascii.eqb bit "0" then esquerdo no_atual
             else direito no_atual) with
      | None => Erro NavegacaoInvalida
      | Some no_atual =>
          match simbolo no_atual with
          | Some s =>
              let emitidos := emitidos ++ [s] in
              if Z.of_nat (length emitidos) =? total_bytes_orig
              then Ok emitidos
              else percorrer raiz total_bytes_orig bits' raiz emitidos
          | None =>
              percorrer raiz total_bytes_orig bits' no_atual emitidos
          end
      end
  end.

(** [descompactar_arquivo] up to [dados_reconst = bytes(resultado)], on the
    content of the file at [caminho_huff]. *)
Definition reconstruir (huff : list byte) : resultado (list byte) :=
  match ler_container huff with
  | (Erro e, _) => Erro e
  | (Ok (tabela_freq, padding, dados_codificados), _) =>
      match construir_arvore (set_tabela_freq tabela_freq novo) with
      | (Erro e, _) => Erro e
      | (Ok raiz, _) =>
          let total_bytes_orig := soma (dict_values tabela_freq) in
          let bits := _bytes_para_bits dados_codificados in
          let bits := aparar bits padding in
          percorrer raiz total_bytes_orig bits raiz []
      end
  end.

(** [descompactar_arquivo] with its output file.  The recovered bytes pass
    through the text layer on their way to the file (decoded as UTF-8, or as
    Latin-1 when that fails, and written as UTF-8 text): that is Python's
    codecs, and [texto] stands for it.  Every exception is raised before the
    output file is opened. *)
Definition descompactar_arquivo (texto : list byte -> list byte)
  (huff : list byte) (saida : arquivo) : resultado unit * arquivo :=
  match reconstruir huff with
  | Erro e => (Erro e, saida)
  | Ok dados_reconst => (Ok tt, Some (texto dados_reconst))
  end.

(* ================================================================== *)
(** ** Predicates and data used by the statements *)

(** *** Bit strings *)

(** A bit string: a string over the characters ["0"] and ["1"]. *)
Definition eh_bit (c : ascii) : Prop := c = "0" \/ c = "1".
Definition cadeia_de_bits (s : list ascii) : Prop := Forall eh_bit s.

(** [p] is a prefix of [s]. *)
Definition prefixo (p s : list ascii) : Prop := exists r, s = p ++ r.

(** The padding [_bits_para_bytes] computes. *)
Definition padding_de (bits : list ascii) : Z :=
  (8 - Z.of_nat (length bits) mod 8) mod 8.

(** The code [_gerar_rec] records for a leaf reached by [caminho]. *)
Definition codigo_de (caminho : list ascii) : list ascii :=
  match caminho with
  | [] => ["0"]
  | _ => caminho
  end.

(** *** Paths in the tree *)

(** [caminho_ate no c s]: following [c] from [no], ["0"] to the left child
    and ["1"] to the right one, runs through internal nodes only and ends on
    a leaf that holds the symbol [s]. *)
Inductive caminho_ate : NoHuffman -> list ascii -> byte -> Prop :=
| ate_folha f s e d :
    caminho_ate (mkNo f (Some s) e d) [] s
| ate_esquerdo f e d c s :
    caminho_ate e c s -> caminho_ate (mkNo f None (Some e) d) ("0" :: c) s
| ate_direito f e d c s :
    caminho_ate d c s -> caminho_ate (mkNo f None e (Some d)) ("1" :: c) s.

(** The symbol [s] sits on a leaf below [no]. *)
Definition folha_em (no : NoHuffman) (s : byte) : Prop :=
  exists c, caminho_ate no c s.

(** The leaf [construir_arvore] makes for an item of the table. *)
Definition folha_de (kv : byte * Z) : NoHuffman :=
  mkNo (snd kv) (Some (fst kv)) None None.

(** The leaves below the nodes of the queue are the symbols [chaves]. *)
Definition folhas_sao (chaves : list byte) (heap : list entrada) : Prop :=
  forall s, (exists no, In no (map snd heap) /\ folha_em no s) <-> In s chaves.

(** *** The order of the queue *)

(** The counters of the entries in the queue are pairwise different and
    below the running counter. *)
Definition contadores_crescentes (heap : list entrada) (contador : Z) : Prop :=
  NoDup (map (fun x => snd (fst x)) heap)
  /\ Forall (fun x => snd (fst x) < contador) heap.

(** The order of the queue on two entries with different counters: the
    frequency first, then the counter. *)
Definition chave_lt (x y : entrada) : Prop :=
  fst (fst x) < fst (fst y)
  \/ (fst (fst x) = fst (fst y) /\ snd (fst x) < snd (fst y)).

(** The queue of the model: ascending, with pairwise different counters
    below the running counter. *)
Definition fila_ordenada (heap : list entrada) (contador : Z) : Prop :=
  contadores_crescentes heap contador /\ StronglySorted chave_lt heap.

(** *** The layout of the container *)

(** The four bytes of a 32-bit unsigned integer, most significant first. *)
Definition be32 (x : Z) : list byte :=
  [byte_de (x / 16777216); byte_de (x / 65536); byte_de (x / 256); byte_de x].

(** One entry of the frequency table in the container. *)
Definition entrada_serializada (kv : byte * Z) : list byte :=
  fst kv :: be32 (snd kv).

(** The layout of a container. *)
Definition layout (freq : dict Z) (padding : Z) (dados : list byte)
  : list byte :=
  HUF1 ++ be32 (Z.of_nat (length freq))
       ++ flat_map entrada_serializada freq
       ++ [byte_de padding] ++ dados.

(** The frequencies that fit in the four bytes of an entry. *)
Definition cabe_em_32 (t : dict Z) : Prop :=
  forall k v, In (k, v) t -> 0 <= v < 4294967296.

(** *** The output file *)




(** *** The round trip and particular inputs *)

(** Round trip at [dados]: encoding succeeds and leaves a container that
    decodes to [dados]. *)
Definition ida_e_volta (dados : list byte) : Prop :=
  forall saida, exists h c,
    encode dados saida = (Ok tt, (h, Some c)) /\ reconstruir c = Ok dados.

(** An input of 2^32 bytes, all of them the letter a. *)
Definition entrada_grande : list byte := repeat x61 (Z.to_nat 4294967296).

(** A container that declares the symbol a once, with a padding byte of 8
    and two bytes of data. *)
Definition container_padding_8 : list byte :=
  HUF1 ++ [x00; x00; x00; x01] ++ [x61; x00; x00; x00; x01] ++ [x08]
       ++ [x00; x00].

(** A container that declares the symbol a with frequency zero, and holds
    no data. *)
Definition container_frequencia_zero : list byte :=
  HUF1 ++ [x00; x00; x00; x01] ++ [x61; x00; x00; x00; x00] ++ [x00].

(** A container that declares no symbol. *)
Definition container_sem_simbolos (p : byte) (dados : list byte) : list byte :=
  HUF1 ++ [x00; x00; x00; x00] ++ [p] ++ dados.

(** *** Induction on a node, through its optional children *)

Definition em_opcional (P : NoHuffman -> Prop) (o : option NoHuffman) : Prop :=
  match o with
  | None => True
  | Some x => P x
  end.

Section InducaoNo.
Variable P : NoHuffman -> Prop.
Hypothesis passo : forall f s e d,
    em_opcional P e -> em_opcional P d -> P (mkNo f s e d).

Fixpoint NoHuffman_inducao (no : NoHuffman) : P no :=
  match no with
  | mkNo f s e d =>
      passo f s e d
        (match e return em_opcional P e with
         | None => I
         | Some x => NoHuffman_inducao x
         end)
        (match d return em_opcional P d with
         | None => I
         | Some x => NoHuffman_inducao x
         end)
  end.
End InducaoNo.

(* ================================================================== *)
(** ** Further predicates and data: the tree, the caches, the payload *)

(** The leaves below a node, from left to right, each with the frequency
    it holds.  As in the program, a node that holds a symbol is a leaf. *)
Fixpoint folhas (no : NoHuffman) : list (byte * Z) :=
  match no with
  | mkNo f (Some s) _ _ => [(s, f)]
  | mkNo _ None e d =>
      (match e with Some e' => folhas e' | None => [] end)
        ++ (match d with Some d' => folhas d' | None => [] end)
  end.

(** Every node below is a leaf or has its two children. *)
Inductive cheia : NoHuffman -> Prop :=
| cheia_folha f s e d : cheia (mkNo f (Some s) e d)
| cheia_interno f e d :
    cheia e -> cheia d -> cheia (mkNo f None (Some e) (Some d)).

(** The frequency of every internal node below is the sum of the
    frequencies of its two children. *)
Inductive pesos_somados : NoHuffman -> Prop :=
| pesos_folha f s e d : pesos_somados (mkNo f (Some s) e d)
| pesos_interno e d :
    pesos_somados e -> pesos_somados d ->
    pesos_somados (mkNo (freq e + freq d) None (Some e) (Some d)).

(** The distinct elements of a list, in the order of their first
    occurrence. *)
Definition primeiras_ocorrencias (bs : list byte) : list byte :=
  rev (nodup Byte.byte_eq_dec (rev bs)).

(** The caches of an object describe the bytes [B] it holds: each of the
    table, the root and the codes is absent or is what the methods compute
    from [B], and a cache is filled only when the ones it is computed from
    are. *)
Definition coerente (B : list byte) (h : Huffman) : Prop :=
  bytes_dados h = Some B
  /\ (tabela_freq h = None \/ tabela_freq h = Some (tabela_de B))
  /\ (raiz h = None
      \/ (tabela_freq h = Some (tabela_de B)
          /\ exists r, raiz h = Some r /\ arvore_de (tabela_de B) = Ok r))
  /\ (codigos h = None
      \/ exists r, raiz h = Some r
                   /\ arvore_de (tabela_de B) = Ok r
                   /\ tabela_freq h = Some (tabela_de B)
                   /\ codigos h = Some (_gerar_rec r [] [])).

(** The number of bits of the coded input: each symbol of the table
    contributes its frequency times the length of its code. *)
Definition total_de_bits (t : dict Z) (cod : dict (list ascii)) : Z :=
  soma (map (fun kv =>
               snd kv * match dict_get cod (fst kv) with
                        | Some c => Z.of_nat (length c)
                        | None => 0
                        end) t).

(* ================================================================== *)
(** ** Bytes and integers *)

Lemma byte_eqb_refl (b : byte) : Byte.eqb b b = true.
Proof. now apply Byte.byte_dec_lb. Qed.

Lemma byte_eqb_eq (a b : byte) : Byte.eqb a b = true <-> a = b.
Proof. split; [apply Byte.byte_dec_bl | apply Byte.byte_dec_lb]. Qed.

Lemma byte_eqb_neq (a b : byte) : Byte.eqb a b = false <-> a <> b.
Proof.
  split; [apply Byte.eqb_false|].
  intros H. destruct (Byte.eqb a b) eqn:E; [|reflexivity].
  now apply byte_eqb_eq in E.
Qed.

Lemma int_de_intervalo (b : byte) : 0 <= int_de b < 256.
Proof.
  unfold int_de. pose proof (Byte.to_N_bounded b). lia.
Qed.

Lemma byte_de_int_de (b : byte) : byte_de (int_de b) = b.
Proof.
  unfold byte_de. pose proof (int_de_intervalo b) as H.
  rewrite Z.mod_small by exact H.
  unfold int_de. rewrite N2Z.id, Byte.of_to_N. reflexivity.
Qed.

Lemma int_de_byte_de (x : Z) : 0 <= x < 256 -> int_de (byte_de x) = x.
Proof.
  intros H. unfold byte_de. rewrite Z.mod_small by exact H.
  destruct (Byte.of_N (Z.to_N x)) as [b|] eqn:E.
  - apply Byte.to_of_N in E. unfold int_de. rewrite E. lia.
  - apply Byte.of_N_None_iff in E. lia.
Qed.

Lemma big_endian_4 (x : Z) : big_endian 4 x = be32 x.
Proof.
  unfold be32. simpl.
  rewrite !Z.div_div by lia. reflexivity.
Qed.

Lemma from_bytes_be32 (x : Z) : 0 <= x < 4294967296 -> from_bytes (be32 x) = x.
Proof.
  intros H. unfold from_bytes, be32. simpl.
  assert (E : forall y, int_de (byte_de y) = y mod 256).
  { intros y. unfold byte_de.
    pose proof (Z.mod_pos_bound y 256 ltac:(lia)) as Hy.
    rewrite <- (Z.mod_mod y 256) at 2 by lia.
    generalize dependent (y mod 256). intros z Hz.
    rewrite Z.mod_small by lia.
    destruct (Byte.of_N (Z.to_N z)) as [b|] eqn:E.
    - apply Byte.to_of_N in E. unfold int_de. rewrite E. lia.
    - apply Byte.of_N_None_iff in E. lia. }
  rewrite !E.
  replace (x / 65536) with (x / 256 / 256)
    by (rewrite Z.div_div by lia; reflexivity).
  replace (x / 16777216) with (x / 256 / 256 / 256)
    by (rewrite !Z.div_div by lia; reflexivity).
  pose proof (Z.div_mod x 256 ltac:(lia)) as D0.
  pose proof (Z.div_mod (x / 256) 256 ltac:(lia)) as D1.
  pose proof (Z.div_mod (x / 256 / 256) 256 ltac:(lia)) as D2.
  assert (B3 : 0 <= x / 256 / 256 / 256 < 256).
  { split; [repeat apply Z.div_pos; lia|].
    repeat (apply Z.div_lt_upper_bound; [lia|]). lia. }
  rewrite (Z.mod_small (x / 256 / 256 / 256)) by exact B3.
  remember (x mod 256) as r0. remember ((x / 256) mod 256) as r1.
  remember ((x / 256 / 256) mod 256) as r2.
  remember (x / 256) as q1. remember (q1 / 256) as q2.
  remember (q2 / 256) as q3.
  clear - D0 D1 D2. lia.
Qed.

Lemma to_bytes_4_ok (x : Z) (bs : list byte) :
  to_bytes 4 x = Ok bs -> bs = be32 x /\ 0 <= x < 4294967296.
Proof.
  unfold to_bytes. intros H.
  destruct ((0 <=? x) && (x <? 256 ^ Z.of_nat 4)) eqn:E; [|discriminate].
  apply andb_true_iff in E. destruct E as [E1 E2].
  apply Z.leb_le in E1. apply Z.ltb_lt in E2.
  change (256 ^ Z.of_nat 4) with 4294967296 in E2.
  injection H as H. subst bs. split; [apply big_endian_4 | lia].
Qed.

Lemma to_bytes_4_intervalo (x : Z) :
  0 <= x < 4294967296 -> to_bytes 4 x = Ok (be32 x).
Proof.
  intros H. unfold to_bytes.
  change (256 ^ Z.of_nat 4) with 4294967296.
  destruct (Z.leb_spec 0 x); [|lia].
  destruct (Z.ltb_spec x 4294967296); [|lia].
  simpl andb. cbv iota. f_equal. apply big_endian_4.
Qed.

Lemma to_bytes_4_overflow (x : Z) :
  4294967296 <= x -> to_bytes 4 x = Erro OverflowError.
Proof.
  intros H. unfold to_bytes.
  change (256 ^ Z.of_nat 4) with 4294967296.
  destruct (Z.ltb_spec x 4294967296); [lia|].
  now rewrite andb_false_r.
Qed.

Lemma to_bytes_1_intervalo (x : Z) :
  0 <= x < 256 -> to_bytes 1 x = Ok [byte_de x].
Proof.
  intros H. unfold to_bytes.
  change (256 ^ Z.of_nat 1) with 256.
  destruct (Z.leb_spec 0 x); [|lia].
  destruct (Z.ltb_spec x 256); [|lia].
  reflexivity.
Qed.

(* ================================================================== *)
(** ** Dictionaries *)

Section DictLemas.
Context {V : Type}.
Implicit Types (d : dict V) (k : byte) (v : V).

Lemma dict_get_set_mesmo d k v : dict_get (dict_set k v d) k = Some v.
Proof.
  induction d as [|[k' v'] r IH]; simpl.
  - now rewrite byte_eqb_refl.
  - destruct (Byte.eqb k' k) eqn:E; simpl; rewrite E; auto.
Qed.

Lemma dict_get_set_outro d k k' v :
  k <> k' -> dict_get (dict_set k v d) k' = dict_get d k'.
Proof.
  intros N. induction d as [|[k0 v0] r IH]; simpl.
  - apply byte_eqb_neq in N. now rewrite N.
  - destruct (Byte.eqb k0 k) eqn:E; simpl.
    + apply byte_eqb_eq in E. subst k0.
      apply byte_eqb_neq in N. now rewrite N.
    + now rewrite IH.
Qed.

Lemma dict_get_None d k : dict_get d k = None <-> ~ In k (dict_keys d).
Proof.
  induction d as [|[k' v'] r IH]; simpl.
  - tauto.
  - destruct (Byte.eqb k' k) eqn:E.
    + apply byte_eqb_eq in E. split; [discriminate | tauto].
    + apply byte_eqb_neq in E. tauto.
Qed.

Lemma dict_get_Some_chave d k v :
  dict_get d k = Some v -> In k (dict_keys d).
Proof.
  intros H. destruct (in_dec Byte.byte_eq_dec k (dict_keys d)) as [|N]; auto.
  apply dict_get_None in N. congruence.
Qed.

Lemma dict_chave_get d k :
  In k (dict_keys d) -> exists v, dict_get d k = Some v.
Proof.
  intros H. destruct (dict_get d k) as [v|] eqn:E; eauto.
  apply dict_get_None in E. contradiction.
Qed.

Lemma dict_set_ausente d k v :
  dict_get d k = None -> dict_set k v d = d ++ [(k, v)].
Proof.
  induction d as [|[k' v'] r IH]; simpl; auto.
  destruct (Byte.eqb k' k); [discriminate|].
  intros H. now rewrite IH.
Qed.

Lemma dict_set_chaves_presente d k v :
  In k (dict_keys d) -> dict_keys (dict_set k v d) = dict_keys d.
Proof.
  induction d as [|[k' v'] r IH]; simpl; [tauto|].
  destruct (Byte.eqb k' k) eqn:E; simpl; auto.
  apply byte_eqb_neq in E. intros [H|H]; [contradiction|].
  now rewrite IH.
Qed.

Lemma dict_set_chaves d k v :
  dict_keys (dict_set k v d)
  = if in_dec Byte.byte_eq_dec k (dict_keys d) then dict_keys d
    else dict_keys d ++ [k].
Proof.
  destruct (in_dec Byte.byte_eq_dec k (dict_keys d)) as [H|H].
  - now apply dict_set_chaves_presente.
  - apply dict_get_None in H. rewrite dict_set_ausente by exact H.
    unfold dict_keys. now rewrite map_app.
Qed.

Lemma dict_set_NoDup d k v :
  NoDup (dict_keys d) -> NoDup (dict_keys (dict_set k v d)).
Proof.
  intros H. rewrite dict_set_chaves.
  destruct (in_dec Byte.byte_eq_dec k (dict_keys d)) as [I|I]; auto.
  apply NoDup_app; auto.
  - constructor; [simpl; tauto | constructor].
  - intros x Hx [<-|[]]. contradiction.
Qed.

Lemma dict_In_get d k v :
  NoDup (dict_keys d) -> In (k, v) d -> dict_get d k = Some v.
Proof.
  induction d as [|[k' v'] r IH]; simpl; [tauto|].
  intros N [H|H]; inversion N; subst.
  - injection H as -> ->. now rewrite byte_eqb_refl.
  - destruct (Byte.eqb k' k) eqn:E; auto.
    apply byte_eqb_eq in E. subst k'.
    exfalso. apply H2. change k with (fst (k, v)). now apply in_map.
Qed.
End DictLemas.

(* ================================================================== *)
(** ** 2) The frequency table *)

Lemma soma_acc (vs : list Z) (a : Z) : fold_left Z.add vs a = a + soma vs.
Proof.
  unfold soma. revert a. induction vs as [|v r IH]; intros a; simpl; [lia|].
  rewrite IH, (IH v). lia.
Qed.

Lemma soma_cons (v : Z) (vs : list Z) : soma (v :: vs) = v + soma vs.
Proof. unfold soma at 1. simpl. apply soma_acc. Qed.

Lemma contar_soma (d : dict Z) (b : byte) :
  soma (dict_values (contar d b)) = soma (dict_values d) + 1.
Proof.
  unfold contar. induction d as [|[k v] r IH]; simpl.
  - unfold soma. simpl. lia.
  - destruct (Byte.eqb k b) eqn:E; simpl.
    + rewrite !soma_cons. lia.
    + rewrite !soma_cons.
      assert (A : forall x y,
                 soma (dict_values (dict_set b x r))
                 = soma (dict_values (dict_set b y r)) + (x - y)).
      { clear. induction r as [|[k v] r IH]; intros x y; simpl.
        - unfold soma. simpl. lia.
        - destruct (Byte.eqb k b); simpl; rewrite !soma_cons; [lia|].
          rewrite (IH x y). lia. }
      destruct (dict_get r b) as [n|] eqn:G; [lia|].
      rewrite IH. lia.
Qed.

Lemma contar_get (d : dict Z) (a b : byte) :
  dict_get (contar d a) b
  = if Byte.eqb a b
    then Some (match dict_get d b with Some n => n | None => 0 end + 1)
    else dict_get d b.
Proof.
  unfold contar. destruct (Byte.eqb a b) eqn:E.
  - apply byte_eqb_eq in E. subst. apply dict_get_set_mesmo.
  - apply byte_eqb_neq in E. now apply dict_get_set_outro.
Qed.

Lemma fold_contar_soma (bs : list byte) (d : dict Z) :
  soma (dict_values (fold_left contar bs d))
  = soma (dict_values d) + Z.of_nat (length bs).
Proof.
  revert d. induction bs as [|b r IH]; intros d; simpl length; simpl fold_left.
  - lia.
  - rewrite IH, contar_soma. lia.
Qed.

Lemma fold_contar_NoDup (bs : list byte) (d : dict Z) :
  NoDup (dict_keys d) -> NoDup (dict_keys (fold_left contar bs d)).
Proof.
  revert d. induction bs as [|b r IH]; intros d H; simpl; auto.
  apply IH. unfold contar. now apply dict_set_NoDup.
Qed.

Lemma fold_contar_get (bs : list byte) (d : dict Z) (b : byte) :
  dict_get (fold_left contar bs d) b
  = match count_occ Byte.byte_eq_dec bs b with
    | O => dict_get d b
    | S _ => Some (match dict_get d b with Some n => n | None => 0 end
                   + Z.of_nat (count_occ Byte.byte_eq_dec bs b))
    end.
Proof.
  revert d. induction bs as [|a r IH]; intros d; simpl fold_left.
  - reflexivity.
  - rewrite IH, contar_get. simpl count_occ.
    destruct (Byte.byte_eq_dec a b) as [->|N].
    + rewrite byte_eqb_refl.
      destruct (count_occ Byte.byte_eq_dec r b); f_equal; lia.
    + apply byte_eqb_neq in N. now rewrite N.
Qed.

(** The frequency table counts the occurrences of each byte. *)
Lemma tabela_de_get (bs : list byte) (b : byte) :
  dict_get (tabela_de bs) b
  = match count_occ Byte.byte_eq_dec bs b with
    | O => None
    | S _ => Some (Z.of_nat (count_occ Byte.byte_eq_dec bs b))
    end.
Proof. unfold tabela_de. rewrite fold_contar_get. reflexivity. Qed.

Lemma tabela_de_soma (bs : list byte) :
  soma (dict_values (tabela_de bs)) = Z.of_nat (length bs).
Proof. unfold tabela_de. rewrite fold_contar_soma. reflexivity. Qed.

Lemma tabela_de_NoDup (bs : list byte) : NoDup (dict_keys (tabela_de bs)).
Proof. apply fold_contar_NoDup. constructor. Qed.

Lemma tabela_de_chaves (bs : list byte) (b : byte) :
  In b (dict_keys (tabela_de bs)) <-> In b bs.
Proof.
  rewrite (count_occ_In Byte.byte_eq_dec bs). split.
  - intros H. apply dict_chave_get in H. destruct H as [v H].
    rewrite tabela_de_get in H.
    destruct (count_occ Byte.byte_eq_dec bs b); [discriminate | lia].
  - intros H. apply (dict_get_Some_chave _ _
                       (Z.of_nat (count_occ Byte.byte_eq_dec bs b))).
    rewrite tabela_de_get.
    destruct (count_occ Byte.byte_eq_dec bs b); [lia | reflexivity].
Qed.

Lemma tabela_de_valores (bs : list byte) (b : byte) (fr : Z) :
  In (b, fr) (tabela_de bs) ->
  fr = Z.of_nat (count_occ Byte.byte_eq_dec bs b) /\ 1 <= fr.
Proof.
  intros H. apply dict_In_get in H; [|apply tabela_de_NoDup].
  rewrite tabela_de_get in H.
  destruct (count_occ Byte.byte_eq_dec bs b) eqn:E; [discriminate|].
  injection H as <-. lia.
Qed.

Lemma tabela_de_vazia (bs : list byte) : tabela_de bs = [] -> bs = [].
Proof.
  intros H. destruct bs as [|b r]; auto.
  assert (I : In b (dict_keys (tabela_de (b :: r))))
    by (apply tabela_de_chaves; simpl; auto).
  rewrite H in I. destruct I.
Qed.

(* ================================================================== *)
(** ** 3) The priority queue and the tree *)

Lemma heappush_perm (heap : list entrada) (x : entrada) :
  Permutation (heappush heap x) (x :: heap).
Proof.
  induction heap as [|y r IH]; simpl; auto.
  destruct (entrada_lt x y); auto.
  rewrite IH. apply perm_swap.
Qed.

Lemma heappush_length (heap : list entrada) (x : entrada) :
  length (heappush heap x) = S (length heap).
Proof. rewrite (Permutation_length (heappush_perm heap x)). reflexivity. Qed.

Lemma empilhar_folhas_nos (itens : dict Z) (heap : list entrada) (c : Z) :
  Permutation (map snd (fst (empilhar_folhas itens heap c)))
              (map folha_de itens ++ map snd heap).
Proof.
  revert heap c. induction itens as [|[b fr] r IH]; intros heap c; simpl.
  - reflexivity.
  - rewrite IH. rewrite (Permutation_map snd (heappush_perm heap _)).
    simpl. symmetry. apply Permutation_middle.
Qed.

Lemma empilhar_folhas_length (itens : dict Z) (heap : list entrada) (c : Z) :
  length (fst (empilhar_folhas itens heap c))
  = (length itens + length heap)%nat.
Proof.
  transitivity (length (map snd (fst (empilhar_folhas itens heap c)))).
  - symmetry. apply length_map.
  - rewrite (Permutation_length (empilhar_folhas_nos _ _ _)).
    now rewrite length_app, !length_map.
Qed.

(** The loop keeps every property of the queue that does not depend on the
    order of its entries and that survives one merge. *)
Lemma combinar_invariante (Q : list entrada -> Z -> Prop) :
  (forall l l' c, Permutation l l' -> Q l c -> Q l' c) ->
  (forall f1 c1 n1 f2 c2 n2 l c,
      Q ((f1, c1, n1) :: (f2, c2, n2) :: l) c ->
      Q ((f1 + f2, c, mkNo (f1 + f2) None (Some n1) (Some n2)) :: l) (c + 1)) ->
  forall fuel heap c, Q heap c -> exists c', Q (combinar fuel heap c) c'.
Proof.
  intros Hperm Hpasso fuel.
  induction fuel as [|fuel IH]; intros heap c HQ; simpl.
  - destruct (1 <? length heap)%nat; eauto.
  - destruct heap as [|[[f1 c1] n1] [|[[f2 c2] n2] heap2]]; simpl; eauto.
    apply IH. eapply Hperm; [symmetry; apply heappush_perm|].
    apply (Hpasso f1 c1 n1 f2 c2 n2). exact HQ.
Qed.

(** With [length heap] rounds of fuel the loop ends by its own test. *)
Lemma combinar_sai (fuel : nat) (heap : list entrada) (c : Z) :
  (length heap <= fuel)%nat -> (length (combinar fuel heap c) <= 1)%nat.
Proof.
  revert heap c. induction fuel as [|fuel IH]; intros heap c H; simpl.
  - destruct heap; simpl in *; lia.
  - destruct heap as [|[[f1 c1] n1] [|[[f2 c2] n2] heap2]]; simpl in *;
      try lia.
    apply IH. rewrite heappush_length. lia.
Qed.

(** From two entries on, what the loop leaves is one merged node. *)
Lemma combinar_final (fuel : nat) (heap : list entrada) (c : Z) :
  (2 <= length heap <= fuel)%nat ->
  exists f k fr e d,
    combinar fuel heap c = [(f, k, mkNo fr None (Some e) (Some d))].
Proof.
  revert heap c. induction fuel as [|fuel IH]; intros heap c H; [lia|].
  destruct heap as [|[[f1 c1] n1] [|[[f2 c2] n2] heap2]]; simpl in H;
    try lia.
  simpl. destruct heap2 as [|x heap3].
  - simpl. destruct fuel; simpl; eauto 10.
  - apply IH. rewrite heappush_length. simpl in *. lia.
Qed.

Lemma caminho_ate_pai (f : Z) (n1 n2 : NoHuffman) (s : byte) :
  folha_em (mkNo f None (Some n1) (Some n2)) s
  <-> folha_em n1 s \/ folha_em n2 s.
Proof.
  unfold folha_em. split.
  - intros [c H]. inversion H; subst; eauto.
  - intros [[c H]|[c H]]; eexists; [apply ate_esquerdo | apply ate_direito];
      eassumption.
Qed.

Lemma folha_em_folha_de (kv : byte * Z) (s : byte) :
  folha_em (folha_de kv) s <-> s = fst kv.
Proof.
  unfold folha_em, folha_de. split.
  - intros [c H]. inversion H; subst; reflexivity.
  - intros ->. exists []. constructor.
Qed.

Lemma folhas_sao_combinar (chaves : list byte) fuel heap c :
  folhas_sao chaves heap -> folhas_sao chaves (combinar fuel heap c).
Proof.
  intros H.
  destruct (combinar_invariante (fun l _ => folhas_sao chaves l))
    with (fuel := fuel) (heap := heap) (c := c) as [c' R]; auto.
  - intros l l' ? P Q s. rewrite <- (Q s). split; intros [no [I F]];
      exists no; split; auto;
      eapply Permutation_in; try exact I; apply Permutation_map;
      [symmetry|]; exact P.
  - intros f1 c1 n1 f2 c2 n2 l ? Q s. rewrite <- (Q s). simpl. split.
    + intros [no [[<-|I] F]].
      * apply caminho_ate_pai in F. destruct F; eauto.
      * eauto.
    + intros [no [[<-|[<-|I]] F]].
      * eexists; split; [left; reflexivity|]. apply caminho_ate_pai. auto.
      * eexists; split; [left; reflexivity|]. apply caminho_ate_pai. auto.
      * eauto.
Qed.

Lemma folhas_sao_empilhar (itens : dict Z) :
  folhas_sao (dict_keys itens) (fst (empilhar_folhas itens [] 0)).
Proof.
  intros s. unfold dict_keys. rewrite in_map_iff. split.
  - intros [no [I F]].
    eapply Permutation_in in I; [|apply empilhar_folhas_nos].
    simpl in I. rewrite app_nil_r in I. apply in_map_iff in I.
    destruct I as [kv [<- I]]. apply folha_em_folha_de in F. eauto.
  - intros [kv [<- I]]. exists (folha_de kv). split.
    + eapply Permutation_in; [symmetry; apply empilhar_folhas_nos|].
      simpl. rewrite app_nil_r. now apply in_map.
    + now apply folha_em_folha_de.
Qed.

(** What [construir_arvore] builds from a non-empty table: a root that is
    not a leaf, with the symbols of the table on the leaves below it. *)
Lemma arvore_de_correta (t : dict Z) :
  t <> [] ->
  exists fr e d,
    arvore_de t = Ok (mkNo fr None e d)
    /\ forall s, folha_em (mkNo fr None e d) s <-> In s (dict_keys t).
Proof.
  intros Hne. unfold arvore_de.
  destruct t as [|kv t']; [contradiction|]. clear Hne.
  set (t := kv :: t').
  pose proof (folhas_sao_empilhar t) as F.
  pose proof (empilhar_folhas_length t [] 0) as L.
  destruct (empilhar_folhas t [] 0) as [heap c] eqn:E. simpl in F, L.
  destruct (length heap =? 1)%nat eqn:E1.
  - apply Nat.eqb_eq in E1.
    destruct heap as [|[[f k] no] [|]]; simpl in E1; try discriminate.
    simpl. do 3 eexists. split; [reflexivity|].
    intros s. rewrite <- (F s). simpl. split.
    + intros [p H]. inversion H; subst. exists no. split; auto.
      eexists; eassumption.
    + intros [no' [[<-|[]] [p H]]]. exists ("0" :: p). now constructor.
  - apply Nat.eqb_neq in E1.
    assert (L2 : (2 <= length heap)%nat) by (subst t; simpl in L; lia).
    destruct (combinar_final (length heap) heap c) as (f & k & fr & e & d & R);
      [lia|].
    pose proof (folhas_sao_combinar _ (length heap) heap c F) as F'.
    rewrite R in *. simpl. do 3 eexists. split; [reflexivity|].
    intros s. rewrite <- (F' s). simpl. split.
    + intros H. eauto.
    + intros [no' [[<-|[]] H]]. exact H.
Qed.

(* ================================================================== *)
(** ** 4) The code table *)

Lemma caminho_ate_bits no p s : caminho_ate no p s -> cadeia_de_bits p.
Proof.
  induction 1; constructor; auto; [left | right]; reflexivity.
Qed.

Lemma caminho_ate_interno no p s :
  caminho_ate no p s -> simbolo no = None -> p <> [].
Proof. destruct 1; simpl; congruence. Qed.

(** A path to a leaf is no proper prefix of a path to a leaf, and the leaf
    it ends on is decided by the path. *)
Lemma caminho_ate_prefixo no p s :
  caminho_ate no p s ->
  forall r s', caminho_ate no (p ++ r) s' -> r = [] /\ s = s'.
Proof.
  induction 1; intros r s' H'; simpl in H'.
  - inversion H'; subst. auto.
  - inversion H'; subst. eauto.
  - inversion H'; subst. eauto.
Qed.

(** Every entry of the table after [_gerar_rec] was there before or is the
    code of a path from [no] to a leaf. *)
Lemma _gerar_rec_get no :
  forall caminho cod s c,
    dict_get (_gerar_rec no caminho cod) s = Some c ->
    dict_get cod s = Some c
    \/ exists p, caminho_ate no p s /\ c = codigo_de (caminho ++ p).
Proof.
  induction no as [f o e d IHe IHd] using NoHuffman_inducao.
  intros caminho cod s c H. destruct o as [s0|]; simpl in H.
  - destruct (Byte.byte_eq_dec s0 s) as [->|N].
    + rewrite dict_get_set_mesmo in H. injection H as <-.
      right. exists []. split; [constructor|].
      rewrite app_nil_r. reflexivity.
    + rewrite dict_get_set_outro in H by exact N. auto.
  - assert (A : forall s c,
               dict_get (match e with
                         | Some e' => _gerar_rec e' (caminho ++ ["0"]) cod
                         | None => cod
                         end) s = Some c ->
               dict_get cod s = Some c
               \/ exists p, caminho_ate (mkNo f None e d) p s
                            /\ c = codigo_de (caminho ++ p)).
    { intros s1 c1 H1. destruct e as [e'|]; auto.
      apply IHe in H1. destruct H1 as [H1|[p [P ->]]]; auto.
      right. exists ("0" :: p). split; [now constructor|].
      now rewrite <- app_assoc. }
    destruct d as [d'|]; auto.
    apply IHd in H. destruct H as [H|[p [P ->]]]; auto.
    right. exists ("1" :: p). split; [now constructor|].
    now rewrite <- app_assoc.
Qed.

Lemma _gerar_rec_mantem no :
  forall caminho cod s,
    dict_get cod s <> None ->
    dict_get (_gerar_rec no caminho cod) s <> None.
Proof.
  induction no as [f o e d IHe IHd] using NoHuffman_inducao.
  intros caminho cod s H. destruct o as [s0|]; simpl.
  - destruct (Byte.byte_eq_dec s0 s) as [->|N].
    + rewrite dict_get_set_mesmo. discriminate.
    + now rewrite dict_get_set_outro.
  - destruct d as [d'|]; [apply IHd|]; destruct e as [e'|]; auto;
      now apply IHe.
Qed.

(** Every leaf below [no] gets an entry. *)
Lemma _gerar_rec_tem no p s :
  caminho_ate no p s ->
  forall caminho cod, dict_get (_gerar_rec no caminho cod) s <> None.
Proof.
  induction 1; intros caminho cod; simpl.
  - rewrite dict_get_set_mesmo. discriminate.
  - destruct d as [d'|]; [apply _gerar_rec_mantem|]; apply IHcaminho_ate.
  - apply IHcaminho_ate.
Qed.

(** The code table of a tree whose root is not a leaf: each code is the
    path from the root to the leaf of its symbol. *)
Lemma codigos_sao_caminhos fr e d s c :
  dict_get (_gerar_rec (mkNo fr None e d) [] []) s = Some c ->
  caminho_ate (mkNo fr None e d) c s.
Proof.
  intros H. apply _gerar_rec_get in H. destruct H as [H|[p [P ->]]].
  - discriminate.
  - simpl. pose proof (caminho_ate_interno _ _ _ P eq_refl).
    destruct p; [contradiction | exact P].
Qed.

(* ================================================================== *)
(** ** 6) The walk of the tree *)

(** Walking a path to a leaf emits the symbol of the leaf and goes back to
    the root, or stops when the count is reached. *)
Lemma percorrer_caminho no p s :
  caminho_ate no p s -> simbolo no = None ->
  forall raiz total resto emitidos,
    percorrer raiz total (p ++ resto) no emitidos
    = if Z.of_nat (length (emitidos ++ [s])) =? total
      then Ok (emitidos ++ [s])
      else percorrer raiz total resto raiz (emitidos ++ [s]).
Proof.
  induction 1 as [|f e d c s H IH|f e d c s H IH]; intros Hi raiz total resto emitidos.
  - discriminate.
  - simpl. destruct (simbolo e) as [s'|] eqn:E.
    + inversion H; subst; simpl in E; try discriminate.
      injection E as <-. reflexivity.
    + now apply IH.
  - simpl. destruct (simbolo d) as [s'|] eqn:E.
    + inversion H; subst; simpl in E; try discriminate.
      injection E as <-. reflexivity.
    + now apply IH.
Qed.

(** Walking the concatenated codes of [bs] gives [bs] back, the count being
    reached on its last byte. *)
Lemma percorrer_codificar raiz cod total :
  simbolo raiz = None ->
  (forall b c, dict_get cod b = Some c -> caminho_ate raiz c b) ->
  forall bs bits emitidos,
    codificar cod bs = Ok bits ->
    Z.of_nat (length emitidos + length bs) = total ->
    percorrer raiz total bits raiz emitidos = Ok (emitidos ++ bs).
Proof.
  intros Hr Hc. induction bs as [|b r IH]; intros bits emitidos H L; simpl in H.
  - injection H as <-. simpl. now rewrite app_nil_r.
  - destruct (dict_get cod b) as [c|] eqn:G; [|discriminate].
    destruct (codificar cod r) as [bits'|] eqn:C; [|discriminate].
    injection H as <-.
    rewrite (percorrer_caminho _ _ _ (Hc _ _ G) Hr).
    destruct (Z.eqb_spec (Z.of_nat (length (emitidos ++ [b]))) total) as [T|T].
    + rewrite length_app in T. simpl in T, L.
      destruct r; [reflexivity | simpl in L; lia].
    + rewrite (IH bits' (emitidos ++ [b]) eq_refl).
      * now rewrite <- app_assoc.
      * rewrite length_app. simpl in *. lia.
Qed.

Lemma codificar_ok cod bs :
  (forall b, In b bs -> dict_get cod b <> None) ->
  exists bits, codificar cod bs = Ok bits.
Proof.
  induction bs as [|b r IH]; intros H; simpl; eauto.
  destruct (dict_get cod b) as [c|] eqn:G.
  - destruct IH as [bits ->]; eauto. intros; apply H; simpl; auto.
  - exfalso. apply (H b); simpl; auto.
Qed.

Lemma codificar_bits cod bs bits :
  (forall b c, dict_get cod b = Some c -> cadeia_de_bits c /\ c <> []) ->
  codificar cod bs = Ok bits ->
  cadeia_de_bits bits /\ (bs <> [] -> bits <> []).
Proof.
  intros Hc. revert bits. induction bs as [|b r IH]; intros bits H; simpl in H.
  - injection H as <-. split; [constructor | congruence].
  - destruct (dict_get cod b) as [c|] eqn:G; [|discriminate].
    destruct (codificar cod r) as [bits'|] eqn:C; [|discriminate].
    injection H as <-. destruct (Hc _ _ G) as [B N].
    destruct (IH _ eq_refl) as [B' _]. split.
    + apply Forall_app. auto.
    + intros _ E. apply app_eq_nil in E. tauto.
Qed.

(* ================================================================== *)
(** ** 5) The bit packer *)

Lemma firstn_soma {A} (a b : nat) (l : list A) :
  firstn (a + b) l = firstn a l ++ firstn b (skipn a l).
Proof.
  revert l. induction a as [|a IH]; intros l; simpl; auto.
  destruct l as [|x l]; simpl.
  - now rewrite firstn_nil.
  - now rewrite IH.
Qed.

Lemma Forall_fatia {A} (P : A -> Prop) (l : list A) (i n : nat) :
  Forall P l -> Forall P (firstn n (skipn i l)).
Proof.
  intros H. rewrite <- (firstn_skipn i l) in H.
  apply Forall_app in H. destruct H as [_ H].
  rewrite <- (firstn_skipn n (skipn i l)) in H.
  apply Forall_app in H. tauto.
Qed.

(** Eight binary digits are the digits of the byte they denote. *)
Lemma int_base2_formatar (grupo : list ascii) :
  length grupo = 8%nat -> cadeia_de_bits grupo ->
  exists v, int_base2 grupo = Ok v
            /\ (0 <=? v) && (v <? 256) = true
            /\ formatar_08b (byte_de v) = grupo.
Proof.
  intros L B.
  do 8 (destruct grupo as [|? grupo]; [discriminate|]).
  destruct grupo; [|discriminate]. clear L.
  repeat match goal with
         | H : cadeia_de_bits (_ :: _) |- _ => inversion H; subst; clear H
         | H : Forall eh_bit (_ :: _) |- _ => inversion H; subst; clear H
         end.
  repeat match goal with
         | H : eh_bit _ |- _ => destruct H as [-> | ->]
         end;
    (eexists; split; [reflexivity | split; reflexivity]).
Qed.

Lemma agrupar_correta (bits : list ascii) :
  cadeia_de_bits bits ->
  forall n i dados,
    ((i + n) * 8 <= length bits)%nat ->
    exists D,
      agrupar bits (map (fun k => (k * 8)%nat) (seq i n)) dados
      = Ok (dados ++ D)
      /\ _bytes_para_bits D = firstn (n * 8) (skipn (i * 8) bits)
      /\ length D = n.
Proof.
  intros B. induction n as [|n IH]; intros i dados L.
  - exists []. simpl. now rewrite app_nil_r.
  - simpl seq. simpl map. simpl agrupar.
    unfold fatia. replace (i * 8 + 8 - i * 8)%nat with 8%nat by lia.
    destruct (int_base2_formatar (firstn 8 (skipn (i * 8) bits)))
      as (v & -> & -> & F).
    + rewrite length_firstn, length_skipn. lia.
    + apply Forall_fatia, B.
    + destruct (IH (S i) (dados ++ [byte_de v])) as (D & -> & U & LD);
        [lia|].
      exists (byte_de v :: D). split; [now rewrite <- app_assoc|].
      split; [|simpl; lia].
      unfold _bytes_para_bits in *.
      change (flat_map formatar_08b (byte_de v :: D))
        with (formatar_08b (byte_de v) ++ flat_map formatar_08b D).
      rewrite U, F.
      change (S n * 8)%nat with (8 + n * 8)%nat.
      rewrite firstn_soma, skipn_skipn. do 3 f_equal.
Qed.

Lemma range_passo_8 (k : nat) :
  range_passo (k * 8) 8 = map (fun j => (j * 8)%nat) (seq 0 k).
Proof.
  unfold range_passo. do 2 f_equal.
  replace (k * 8 + 8 - 1)%nat with (7 + k * 8)%nat by lia.
  rewrite Nat.div_add by lia. reflexivity.
Qed.

Lemma padding_de_correto (bits : list ascii) :
  0 <= padding_de bits <= 7
  /\ (Z.of_nat (length bits) + padding_de bits) mod 8 = 0.
Proof.
  unfold padding_de. set (n := Z.of_nat (length bits)).
  pose proof (Z.mod_pos_bound n 8 ltac:(lia)) as M.
  pose proof (Z.div_mod n 8 ltac:(lia)) as D.
  destruct (Z.eq_dec (n mod 8) 0) as [E|E].
  - rewrite E. change ((8 - 0) mod 8) with 0.
    split; [lia|]. now rewrite Z.add_0_r.
  - rewrite (Z.mod_small (8 - n mod 8)) by lia. split; [lia|].
    replace (n + (8 - n mod 8)) with ((n / 8 + 1) * 8) by lia.
    apply Z.mod_mul. lia.
Qed.

(** [_bits_para_bytes] on a bit string: it succeeds, and the bytes it
    returns expand to the string followed by the padding. *)
Lemma _bits_para_bytes_correta (bits : list ascii) :
  cadeia_de_bits bits ->
  exists dados,
    _bits_para_bytes bits
    = Ok (dados, if (length bits =? 0)%nat then 0 else padding_de bits)
    /\ _bytes_para_bits dados
       = bits ++ repeat "0" (Z.to_nat (padding_de bits))
    /\ (8 * length dados
        = length bits + Z.to_nat (padding_de bits))%nat.
Proof.
  intros B. unfold _bits_para_bytes.
  destruct (length bits =? 0)%nat eqn:E.
  - apply Nat.eqb_eq in E. apply length_zero_iff_nil in E. subst bits.
    exists []. repeat split.
  - fold (padding_de bits).
    destruct (padding_de_correto bits) as [P M].
    set (p := padding_de bits) in *.
    set (cheio := bits ++ repeat "0" (Z.to_nat p)).
    assert (LC : length cheio = (length bits + Z.to_nat p)%nat)
      by (unfold cheio; now rewrite length_app, repeat_length).
    assert (K : exists k, length cheio = (k * 8)%nat).
    { exists (Z.to_nat ((Z.of_nat (length bits) + p) / 8)).
      apply Z.div_exact in M; [|lia]. lia. }
    destruct K as [k K]. rewrite K, range_passo_8.
    destruct (agrupar_correta cheio) with (n := k) (i := 0%nat) (dados := @nil byte)
      as (D & -> & U & LD).
    + apply Forall_app. split; [exact B|].
      apply Forall_forall. intros c I. apply repeat_spec in I. now left.
    + lia.
    + exists D. simpl app. split; [reflexivity|]. split.
      * rewrite U. simpl skipn. rewrite <- K. apply firstn_all.
      * lia.
Qed.

Lemma aparar_padding (bits : list ascii) (p : Z) :
  0 <= p -> aparar (bits ++ repeat "0" (Z.to_nat p)) p = bits.
Proof.
  intros H. unfold aparar. destruct (Z.ltb_spec 0 p).
  - unfold sem_final. rewrite length_app, repeat_length.
    replace (length bits + Z.to_nat p - Z.to_nat p)%nat with
      (length bits + 0)%nat by lia.
    rewrite firstn_app_2. simpl. apply app_nil_r.
  - replace p with 0 by lia. simpl. apply app_nil_r.
Qed.

(* ================================================================== *)
(** ** 5) [compactar], step by step *)

Ltac desdobrar :=
  cbv [bind no_objeto ler_arquivo compactar get ret raise lift put
       gerar_tabela_frequencia construir_arvore gerar_codigos novo fst snd
       bytes_dados tabela_freq raiz codigos set_tabela_freq set_raiz
       set_codigos com_arquivo_wb].

Lemma codigos_da_arvore (B : list byte) fr e d :
  arvore_de (tabela_de B) = Ok (mkNo fr None e d) ->
  (forall s, folha_em (mkNo fr None e d) s <-> In s (dict_keys (tabela_de B))) ->
  exists bits,
    codificar (_gerar_rec (mkNo fr None e d) [] []) B = Ok bits
    /\ cadeia_de_bits bits /\ (B <> [] -> bits <> []).
Proof.
  intros HA HF.
  destruct (codificar_ok (_gerar_rec (mkNo fr None e d) [] []) B) as [bits C].
  { intros b I. apply tabela_de_chaves, HF in I. destruct I as [p P].
    eapply _gerar_rec_tem. exact P. }
  exists bits. split; [exact C|].
  eapply codificar_bits; [|exact C].
  intros b c G. apply codigos_sao_caminhos in G. split.
  - eapply caminho_ate_bits. exact G.
  - eapply caminho_ate_interno; [exact G | reflexivity].
Qed.

Lemma encode_passos (B : list byte) (saida : arquivo) :
  B <> [] ->
  exists fr e d bits dados,
    arvore_de (tabela_de B) = Ok (mkNo fr None e d)
    /\ codificar (_gerar_rec (mkNo fr None e d) [] []) B = Ok bits
    /\ cadeia_de_bits bits /\ bits <> []
    /\ _bits_para_bytes bits = Ok (dados, padding_de bits)
    /\ _bytes_para_bits dados
       = bits ++ repeat "0" (Z.to_nat (padding_de bits))
    /\ dados <> []
    /\ encode B saida
       = (fst (escrever_container (tabela_de B) (padding_de bits) dados []),
          (mkHuffman (Some B) (Some (tabela_de B)) (Some (mkNo fr None e d))
                     (Some (_gerar_rec (mkNo fr None e d) [] [])),
           Some (snd (escrever_container (tabela_de B) (padding_de bits)
                                         dados [])))).
Proof.
  intros HB.
  destruct (arvore_de_correta (tabela_de B)) as (fr & e & d & HA & HF).
  { intros E. now apply tabela_de_vazia in E. }
  destruct (codigos_da_arvore B fr e d HA HF) as (bits & HC & Hb & Hn).
  specialize (Hn HB).
  destruct (_bits_para_bytes_correta bits Hb) as (dados & HP & HU & HL).
  assert (L : (length bits =? 0)%nat = false).
  { apply Nat.eqb_neq. destruct bits; [contradiction | discriminate]. }
  rewrite L in HP.
  exists fr, e, d, bits, dados. repeat (split; [assumption|]).
  split.
  { intros ->. destruct bits; [contradiction | simpl in HL; lia]. }
  unfold encode. desdobrar. rewrite HA. cbv beta iota zeta.
  rewrite HC. cbv beta iota zeta. rewrite HP. cbv beta iota zeta.
  destruct (escrever_container (tabela_de B) (padding_de bits) dados [])
    as [r f]. reflexivity.
Qed.

Lemma encode_vazio (saida : arquivo) :
  encode [] saida
  = (Erro ArquivoVazio, (mkHuffman (Some []) (Some []) None None, saida)).
Proof. reflexivity. Qed.

Lemma escrever_tabela_ok (t : dict Z) (f : list byte) :
  cabe_em_32 t ->
  escrever_tabela t f = (Ok tt, f ++ flat_map entrada_serializada t).
Proof.
  revert f. induction t as [|[k v] r IH]; intros f H; simpl.
  - unfold ret. now rewrite app_nil_r.
  - cbv [bind write lift].
    rewrite to_bytes_4_intervalo by (apply (H k); simpl; auto).
    rewrite IH by (intros k' v' I; apply (H k'); simpl; auto).
    unfold entrada_serializada. simpl. now rewrite <- !app_assoc.
Qed.

Lemma escrever_tabela_inv (t : dict Z) (f f' : list byte) :
  escrever_tabela t f = (Ok tt, f') -> cabe_em_32 t.
Proof.
  revert f. induction t as [|[k v] r IH]; intros f H k' v' I; simpl in *.
  - destruct I.
  - cbv [bind write lift] in H.
    destruct (to_bytes 4 v) as [bs|] eqn:E; [|discriminate].
    apply to_bytes_4_ok in E. destruct I as [I|I].
    + injection I as <- <-. tauto.
    + eapply IH; eassumption.
Qed.

(** An entry that does not fit stops the writing, after the bytes of the
    entries before it and the symbol of that entry. *)
Lemma escrever_tabela_overflow (k : byte) (v : Z) (r : dict Z) (f : list byte) :
  4294967296 <= v ->
  escrever_tabela ((k, v) :: r) f = (Erro OverflowError, f ++ [k]).
Proof.
  intros H. simpl. cbv [bind write lift].
  now rewrite to_bytes_4_overflow.
Qed.

Lemma escrever_container_ok (t : dict Z) (p : Z) (dados : list byte) :
  Z.of_nat (length t) < 4294967296 -> cabe_em_32 t -> 0 <= p < 256 ->
  escrever_container t p dados [] = (Ok tt, layout t p dados).
Proof.
  intros L H P. unfold escrever_container. cbv [bind write lift].
  rewrite to_bytes_4_intervalo by lia.
  rewrite escrever_tabela_ok by exact H.
  rewrite to_bytes_1_intervalo by exact P.
  unfold layout. simpl. now rewrite <- !app_assoc.
Qed.

Lemma escrever_container_inv (t : dict Z) (p : Z) (dados f : list byte) :
  escrever_container t p dados [] = (Ok tt, f) ->
  f = layout t p dados /\ cabe_em_32 t /\ 0 <= p < 256
  /\ Z.of_nat (length t) < 4294967296.
Proof.
  unfold escrever_container. cbv [bind write lift]. intros H.
  destruct (to_bytes 4 (Z.of_nat (length t))) as [nb|] eqn:E1; [|discriminate].
  apply to_bytes_4_ok in E1. destruct E1 as [-> L].
  destruct (escrever_tabela t (([] ++ HUF1) ++ be32 (Z.of_nat (length t))))
    as [[[]|] f1] eqn:E2; [|discriminate].
  pose proof (escrever_tabela_inv _ _ _ E2) as C.
  rewrite escrever_tabela_ok in E2 by exact C. injection E2 as <-.
  unfold to_bytes in H. change (256 ^ Z.of_nat 1) with 256 in H.
  destruct ((0 <=? p) && (p <? 256)) eqn:E3; [|discriminate].
  apply andb_true_iff in E3. destruct E3 as [P1 P2].
  apply Z.leb_le in P1. apply Z.ltb_lt in P2.
  injection H as <-. split; [|split; [exact C | lia]].
  unfold layout. simpl. now rewrite <- !app_assoc.
Qed.

(** At most 256 symbols in a table. *)
Lemma dict_length_256 {V} (d : dict V) :
  NoDup (dict_keys d) -> (length d <= 256)%nat.
Proof.
  intros H.
  assert (N : NoDup (map Byte.to_nat (dict_keys d))).
  { apply Injective_map_NoDup; [|exact H].
    intros a b E. apply (f_equal Byte.of_nat) in E.
    rewrite !Byte.of_to_nat in E. congruence. }
  apply NoDup_incl_length with (l' := seq 0 256) in N.
  - unfold dict_keys in N. now rewrite !length_map, length_seq in N.
  - intros n I. apply in_map_iff in I. destruct I as [b [<- _]].
    apply in_seq. pose proof (Byte.to_nat_bounded b). lia.
Qed.

(* ================================================================== *)
(** ** 6) Reading a container back *)

Lemma ler_entradas_serializadas (t : dict Z) :
  forall acc resto,
    NoDup (dict_keys (acc ++ t)) -> cabe_em_32 t ->
    ler_entradas (Z.of_nat (length t)) acc
                 (flat_map entrada_serializada t ++ resto)
    = (Ok (acc ++ t), resto).
Proof.
  induction t as [|[k v] r IH]; intros acc resto N C.
  - rewrite app_nil_r. simpl. now destruct resto.
  - change (flat_map entrada_serializada ((k, v) :: r) ++ resto)
      with (k :: byte_de (v / 16777216) :: byte_de (v / 65536)
              :: byte_de (v / 256) :: byte_de v
              :: (flat_map entrada_serializada r ++ resto)).
    cbn [ler_entradas].
    destruct (Z.leb_spec (Z.of_nat (length ((k, v) :: r))) 0) as [L|L];
      [simpl length in L; lia|].
    change [byte_de (v / 16777216); byte_de (v / 65536); byte_de (v / 256);
            byte_de v] with (be32 v).
    rewrite from_bytes_be32 by (apply (C k); simpl; auto).
    replace (Z.of_nat (length ((k, v) :: r)) - 1) with (Z.of_nat (length r))
      by (simpl length; lia).
    rewrite dict_set_ausente.
    + rewrite IH.
      * now rewrite <- app_assoc.
      * now rewrite <- app_assoc.
      * intros k' v' I. apply (C k'). simpl. auto.
    + apply dict_get_None. unfold dict_keys in *. rewrite map_app in N.
      apply NoDup_remove_2 in N. intros I. apply N.
      apply in_or_app. auto.
Qed.

Lemma bytes_eqb_refl (a : list byte) : bytes_eqb a a = true.
Proof. induction a; simpl; auto. now rewrite byte_eqb_refl. Qed.

Lemma bind_read {A} (k : nat) (a r : list byte)
  (K : list byte -> M (list byte) A) :
  length a = k -> bind (read k) K (a ++ r) = K a r.
Proof.
  intros <-. unfold bind, read.
  rewrite firstn_app, Nat.sub_diag, firstn_all, skipn_app, Nat.sub_diag,
    skipn_all.
  simpl. now rewrite app_nil_r.
Qed.

(** The header of a container with the layout reads back as written. *)
Lemma ler_cabecalho_layout (t : dict Z) (p : Z) (dados : list byte) :
  NoDup (dict_keys t) -> cabe_em_32 t ->
  Z.of_nat (length t) < 4294967296 -> 0 <= p < 256 ->
  ler_cabecalho (layout t p dados) = (Ok (t, p), dados).
Proof.
  intros N C L P. unfold ler_cabecalho, layout.
  rewrite (bind_read 4 HUF1) by reflexivity.
  rewrite bytes_eqb_refl. change (negb true) with false. cbv iota.
  rewrite (bind_read 4 (be32 (Z.of_nat (length t)))) by reflexivity.
  change (length (be32 (Z.of_nat (length t))) <? 4)%nat with false.
  cbv iota zeta. rewrite from_bytes_be32 by lia.
  unfold bind at 1.
  rewrite (ler_entradas_serializadas t [] ([byte_de p] ++ dados))
    by assumption.
  rewrite (bind_read 1 [byte_de p]) by reflexivity.
  unfold ret. simpl. now rewrite int_de_byte_de.
Qed.

Lemma construir_arvore_tabela (t : dict Z) :
  fst (construir_arvore (set_tabela_freq t novo)) = arvore_de t.
Proof.
  cbv [construir_arvore bind get ret raise lift put set_tabela_freq novo
       tabela_freq set_raiz bytes_dados raiz codigos].
  destruct (arvore_de t); reflexivity.
Qed.

(** Decoding a container with the layout, whose data pack the codes of
    [bs] under the tree of its table. *)
Lemma reconstruir_layout (t : dict Z) (bs : list byte) fr e d bits dados p :
  NoDup (dict_keys t) -> cabe_em_32 t ->
  arvore_de t = Ok (mkNo fr None e d) ->
  codificar (_gerar_rec (mkNo fr None e d) [] []) bs = Ok bits ->
  soma (dict_values t) = Z.of_nat (length bs) ->
  _bytes_para_bits dados = bits ++ repeat "0" (Z.to_nat p) ->
  0 <= p < 256 -> dados <> [] ->
  reconstruir (layout t p dados) = Ok bs.
Proof.
  intros N C HA HC HS HU P HD. unfold reconstruir, ler_container.
  cbv [bind]. rewrite ler_cabecalho_layout; try assumption.
  - cbv [read_tudo raise ret].
    assert (LD : (length dados =? 0)%nat = false)
      by (apply Nat.eqb_neq; destruct dados; [contradiction | discriminate]).
    rewrite LD. change (false && _) with false. cbv beta iota zeta.
    pose proof (construir_arvore_tabela t) as R. rewrite HA in R.
    destruct (construir_arvore (set_tabela_freq t novo)) as [r h'].
    simpl in R. subst r.
    rewrite HU, aparar_padding by lia.
    rewrite HS.
    exact (percorrer_codificar (mkNo fr None e d) _ (Z.of_nat (length bs))
             eq_refl (codigos_sao_caminhos fr e d) bs bits [] HC eq_refl).
  - pose proof (dict_length_256 t N). lia.
Qed.

(* ================================================================== *)
(** ** The round trip *)

Lemma tabela_de_cabe (B : list byte) :
  (forall b, Z.of_nat (count_occ Byte.byte_eq_dec B b) < 4294967296) ->
  cabe_em_32 (tabela_de B).
Proof.
  intros H k v I. apply tabela_de_valores in I. destruct I as [-> L].
  specialize (H k). lia.
Qed.

Lemma encode_sucesso (B : list byte) (saida : arquivo) :
  B <> [] -> cabe_em_32 (tabela_de B) ->
  exists h c, encode B saida = (Ok tt, (h, Some c)) /\ reconstruir c = Ok B.
Proof.
  intros HB HC.
  destruct (encode_passos B saida HB)
    as (fr & e & d & bits & dados & HA & HK & Hb & Hn & HP & HU & HD & HE).
  destruct (padding_de_correto bits) as [P _].
  pose proof (dict_length_256 _ (tabela_de_NoDup B)) as L.
  rewrite escrever_container_ok in HE by (auto; lia).
  simpl fst in HE. simpl snd in HE.
  do 2 eexists. split; [exact HE|].
  eapply reconstruir_layout; eauto using tabela_de_NoDup, tabela_de_soma.
  lia.
Qed.

(** C1, as amended: for every non-empty byte sequence in which no byte
    value occurs 2^32 times or more, [compactar] succeeds and the bytes that
    the tree walk of [descompactar_arquivo] reconstructs from the container
    it wrote are the input. *)
Theorem ida_e_volta_abaixo_de_2_32 (B : list byte) :
  B <> [] ->
  (forall b, Z.of_nat (count_occ Byte.byte_eq_dec B b) < 4294967296) ->
  ida_e_volta B.
Proof.
  intros HB HC saida. apply encode_sucesso; [exact HB|].
  now apply tabela_de_cabe.
Qed.

Lemma ida_e_volta_abaixo_de_2_32_witness :
  [x61; x61; x61; x62] <> [] /\ ida_e_volta [x61; x61; x61; x62].
Proof.
  assert (N : [x61; x61; x61; x62] <> []) by discriminate.
  split; [exact N|].
  apply (ida_e_volta_abaixo_de_2_32 [x61; x61; x61; x62] N).
  intros b.
  assert (L : (count_occ Byte.byte_eq_dec [x61; x61; x61; x62] b <= 4)%nat)
    by apply count_occ_bound.
  lia.
Defined.

Lemma tabela_de_repeat (b : byte) (n : nat) :
  tabela_de (repeat b (S n)) = [(b, Z.of_nat (S n))].
Proof.
  unfold tabela_de.
  assert (A : forall m k, fold_left contar (repeat b m) [(b, k)]
                          = [(b, k + Z.of_nat m)]).
  { induction m as [|m IH]; intros k; simpl repeat; simpl fold_left.
    - do 2 f_equal. lia.
    - unfold contar at 2. simpl. rewrite byte_eqb_refl, IH.
      do 2 f_equal. lia. }
  simpl repeat. simpl fold_left. unfold contar at 2. simpl dict_get.
  simpl dict_set. rewrite A. do 2 f_equal. lia.
Qed.

(** An input in which one byte occurs 2^32 times or more: the frequency
    does not fit in the four bytes of its entry, [to_bytes] raises, and the
    output file is left with the magic, the count and the symbol. *)
Lemma encode_overflow (b : byte) (n : nat) (saida : arquivo) :
  4294967296 <= Z.of_nat n ->
  exists h,
    encode (repeat b n) saida
    = (Erro OverflowError, (h, Some (HUF1 ++ be32 1 ++ [b]))).
Proof.
  intros H. destruct n as [|n]; [simpl in H; lia|].
  destruct (encode_passos (repeat b (S n)) saida)
    as (fr & e & d & bits & dados & HA & HK & Hb & Hn & HP & HU & HD & HE);
    [discriminate|].
  rewrite HE. rewrite tabela_de_repeat.
  unfold escrever_container. cbv [bind write lift].
  change (to_bytes 4 (Z.of_nat (length [(b, Z.of_nat (S n))])))
    with (Ok (be32 1)). cbv beta iota.
  rewrite escrever_tabela_overflow by exact H.
  eexists. reflexivity.
Qed.

Lemma ok_nao_erro {A S : Type} (a : A) (e : erro) (x y : S) :
  (Ok a, x) = (Erro e, y) -> False.
Proof. intros H. inversion H. Qed.

(** C1, as stated, fails: encoding 2^32 copies of a byte raises
    [OverflowError], so there is no container to decode. *)
Lemma ida_e_volta_falha :
  entrada_grande <> [] /\ ~ ida_e_volta entrada_grande.
Proof.
  unfold entrada_grande. split.
  - intros E. apply (f_equal (@length byte)) in E.
    rewrite repeat_length in E. change (length (@nil byte)) with 0%nat in E.
    lia.
  - intros R. destruct (R None) as (h & c & E & _).
    assert (G : 4294967296 <= Z.of_nat (Z.to_nat 4294967296)) by lia.
    destruct (encode_overflow x61 (Z.to_nat 4294967296) None G) as [h' E'].
    exact (ok_nao_erro _ _ _ _ (eq_trans (eq_sym E) E')).
Qed.

(* ================================================================== *)
(** ** The layout of the container *)

Lemma encode_ok_nao_vazio (B : list byte) (saida : arquivo) w :
  encode B saida = (Ok tt, w) -> B <> [].
Proof. intros H ->. rewrite encode_vazio in H. discriminate. Qed.

(** C5: for every non-empty input, the bytes that [compactar] leaves in the
    output file are the magic HUF1, the number of distinct symbols on four
    bytes, most significant first, one entry per symbol in the order of the
    frequency table, made of the symbol and of its frequency on four bytes,
    most significant first, one byte of padding, and the packed codes of
    the input.  The fields hold the numbers they stand for: the count and
    the frequencies are below 2^32 and the padding is at most 7. *)
Theorem compactar_layout (B : list byte) (saida arq : arquivo) (h : Huffman) :
  B <> [] ->
  encode B saida = (Ok tt, (h, arq)) ->
  exists cod bits dados padding,
    codigos h = Some cod
    /\ codificar cod B = Ok bits
    /\ _bits_para_bytes bits = Ok (dados, padding)
    /\ arq = Some (HUF1
                   ++ be32 (Z.of_nat (length (tabela_de B)))
                   ++ flat_map (fun kv => fst kv :: be32 (snd kv)) (tabela_de B)
                   ++ [byte_de padding]
                   ++ dados)
    /\ from_bytes (be32 (Z.of_nat (length (tabela_de B))))
       = Z.of_nat (length (tabela_de B))
    /\ (forall k v, In (k, v) (tabela_de B) -> from_bytes (be32 v) = v)
    /\ int_de (byte_de padding) = padding /\ 0 <= padding <= 7.
Proof.
  intros HB HE.
  destruct (encode_passos B saida HB)
    as (fr & e & d & bits & dados & HA & HK & Hb & Hn & HP & HU & HD & HE').
  rewrite HE' in HE. clear HE'.
  destruct (escrever_container (tabela_de B) (padding_de bits) dados [])
    as [r f] eqn:W.
  simpl in HE. injection HE as -> <- <-.
  apply escrever_container_inv in W. destruct W as (-> & C & P & L).
  destruct (padding_de_correto bits) as [P7 _].
  exists (_gerar_rec (mkNo fr None e d) [] []), bits, dados, (padding_de bits).
  repeat split; try assumption; try lia.
  - apply from_bytes_be32. lia.
  - intros k v I. apply from_bytes_be32. eapply C. exact I.
  - apply int_de_byte_de. lia.
Qed.

Lemma compactar_layout_witness :
  exists cod bits dados padding,
    codigos (fst (snd (encode [x61; x61; x61; x62] None))) = Some cod
    /\ codificar cod [x61; x61; x61; x62] = Ok bits
    /\ _bits_para_bytes bits = Ok (dados, padding)
    /\ snd (snd (encode [x61; x61; x61; x62] None))
       = Some (HUF1
               ++ be32 (Z.of_nat (length (tabela_de [x61; x61; x61; x62])))
               ++ flat_map (fun kv => fst kv :: be32 (snd kv))
                           (tabela_de [x61; x61; x61; x62])
               ++ [byte_de padding]
               ++ dados)
    /\ from_bytes (be32 (Z.of_nat (length (tabela_de [x61; x61; x61; x62]))))
       = Z.of_nat (length (tabela_de [x61; x61; x61; x62]))
    /\ (forall k v, In (k, v) (tabela_de [x61; x61; x61; x62]) ->
                    from_bytes (be32 v) = v)
    /\ int_de (byte_de padding) = padding /\ 0 <= padding <= 7.
Proof.
  apply (compactar_layout [x61; x61; x61; x62] None
           (snd (snd (encode [x61; x61; x61; x62] None)))
           (fst (snd (encode [x61; x61; x61; x62] None)))).
  - discriminate.
  - vm_compute. reflexivity.
Defined.

(* ================================================================== *)
(** ** The tree at decoding time *)

(** The order of two queue entries with different counters is decided by
    the frequencies and the counters: the nodes are never compared. *)
Lemma entrada_lt_desempate f1 c1 n1 n1' f2 c2 n2 n2' :
  c1 <> c2 ->
  entrada_lt (f1, c1, n1) (f2, c2, n2) = entrada_lt (f1, c1, n1') (f2, c2, n2').
Proof.
  intros H. unfold entrada_lt. apply Z.eqb_neq in H. now rewrite H.
Qed.

Lemma contadores_crescentes_perm l l' c :
  Permutation l l' -> contadores_crescentes l c -> contadores_crescentes l' c.
Proof.
  intros P [N F]. split.
  - eapply Permutation_NoDup; [|exact N]. now apply Permutation_map.
  - eapply Permutation_Forall; eassumption.
Qed.

Lemma contadores_crescentes_push heap c f no :
  contadores_crescentes heap c ->
  contadores_crescentes (heappush heap (f, c, no)) (c + 1).
Proof.
  intros [N F].
  apply (contadores_crescentes_perm ((f, c, no) :: heap));
    [symmetry; apply heappush_perm|].
  split; simpl.
  - constructor; [|exact N]. intros I. apply in_map_iff in I.
    destruct I as [x [E I]]. apply (Forall_forall _ heap) with (x := x) in F;
      [lia | exact I].
  - constructor; [simpl; lia|].
    eapply Forall_impl; [|exact F]. simpl. intros; lia.
Qed.

Lemma entrada_lt_chave (x y : entrada) :
  snd (fst x) <> snd (fst y) ->
  (entrada_lt x y = true <-> chave_lt x y)
  /\ (entrada_lt x y = false <-> chave_lt y x).
Proof.
  destruct x as [[f1 c1] n1], y as [[f2 c2] n2]. unfold chave_lt. simpl.
  intros N. apply Z.eqb_neq in N as N'. rewrite N'. simpl.
  destruct (Z.eqb_spec f1 f2) as [->|F]; simpl.
  - rewrite Z.ltb_lt, Z.ltb_ge. split; split; intros; lia.
  - rewrite Z.ltb_lt, Z.ltb_ge. split; split; intros; lia.
Qed.

Lemma chave_lt_trans (x y z : entrada) :
  chave_lt x y -> chave_lt y z -> chave_lt x z.
Proof. unfold chave_lt. lia. Qed.

Lemma heappush_ordenado (heap : list entrada) (x : entrada) :
  Forall (fun y => snd (fst y) <> snd (fst x)) heap ->
  StronglySorted chave_lt heap ->
  StronglySorted chave_lt (heappush heap x).
Proof.
  intros D S. induction S as [|y r S IH F]; simpl.
  - repeat constructor.
  - inversion D as [|? ? Dy Dr]; subst.
    destruct (entrada_lt x y) eqn:E.
    + apply (entrada_lt_chave x y) in E; [|congruence].
      constructor; [now constructor|]. constructor; [exact E|].
      eapply Forall_impl; [|exact F]. intros z. now apply chave_lt_trans.
    + apply (entrada_lt_chave x y) in E; [|congruence].
      constructor; [now apply IH|].
      eapply Permutation_Forall; [symmetry; apply heappush_perm|].
      now constructor.
Qed.

Lemma fila_ordenada_push heap c f no :
  fila_ordenada heap c -> fila_ordenada (heappush heap (f, c, no)) (c + 1).
Proof.
  intros [C S]. split; [now apply contadores_crescentes_push|].
  apply heappush_ordenado; [|exact S]. destruct C as [_ F].
  eapply Forall_impl; [|exact F]. simpl. intros; lia.
Qed.

Lemma fila_ordenada_empilhar (itens : dict Z) heap c :
  fila_ordenada heap c ->
  fila_ordenada (fst (empilhar_folhas itens heap c))
                (snd (empilhar_folhas itens heap c)).
Proof.
  revert heap c. induction itens as [|[b fr] r IH]; intros heap c H; simpl.
  - exact H.
  - apply IH. now apply fila_ordenada_push.
Qed.

Lemma fila_ordenada_resto x heap c :
  fila_ordenada (x :: heap) c -> fila_ordenada heap c.
Proof.
  intros [[N F] S]. inversion N; inversion F; inversion S; subst.
  repeat split; assumption.
Qed.

Lemma fila_ordenada_combinar fuel heap c :
  fila_ordenada heap c -> exists c', fila_ordenada (combinar fuel heap c) c'.
Proof.
  revert heap c. induction fuel as [|fuel IH]; intros heap c H; simpl.
  - destruct (1 <? length heap)%nat; eauto.
  - destruct heap as [|[[f1 c1] n1] [|[[f2 c2] n2] heap2]]; simpl; eauto.
    apply IH. apply fila_ordenada_push.
    eapply fila_ordenada_resto, fila_ordenada_resto, H.
Qed.

(** In the queue of the model [heap[0]], which [heappop] returns, is below
    every other entry. *)
Lemma heappop_minimo heap c x resto :
  fila_ordenada heap c -> heappop heap = Some (x, resto) ->
  Forall (chave_lt x) resto.
Proof.
  intros [_ S] H. destruct heap; [discriminate|]. injection H as <- <-.
  now inversion S.
Qed.

(** The queue of [construir_arvore] is ordered at every round: after the
    leaves are pushed, and after any number of merges. *)
Lemma fila_de_construir_arvore (t : dict Z) (fuel : nat) :
  fila_ordenada (fst (empilhar_folhas t [] 0)) (snd (empilhar_folhas t [] 0))
  /\ exists c',
      fila_ordenada (combinar fuel (fst (empilhar_folhas t [] 0))
                              (snd (empilhar_folhas t [] 0))) c'.
Proof.
  assert (H : fila_ordenada (fst (empilhar_folhas t [] 0))
                            (snd (empilhar_folhas t [] 0))).
  { apply fila_ordenada_empilhar. repeat constructor. }
  split; [exact H|]. now apply fila_ordenada_combinar.
Qed.

Lemma gerar_codigos_tabela (t : dict Z) (r : NoHuffman) :
  arvore_de t = Ok r ->
  fst (gerar_codigos (set_tabela_freq t novo)) = Ok (_gerar_rec r [] []).
Proof.
  intros H.
  cbv [gerar_codigos construir_arvore bind get ret raise lift put
       set_tabela_freq novo tabela_freq set_raiz set_codigos bytes_dados raiz
       codigos].
  rewrite H. reflexivity.
Qed.

Lemma construir_arvore_so_tabela (h : Huffman) (t : dict Z) :
  tabela_freq h = Some t -> fst (construir_arvore h) = arvore_de t.
Proof.
  destruct h as [bd tf r cod]. simpl. intros ->.
  cbv [construir_arvore bind get ret raise lift put tabela_freq set_raiz
       bytes_dados raiz codigos].
  destruct (arvore_de t); reflexivity.
Qed.

(** C6: the tree that decoding builds is the tree that encoding built.
    [construir_arvore] returns the same root on any two objects that hold
    the same frequency table, whatever else they hold.  The frequency table
    read from a container written by [compactar] is the table [compactar]
    used, entry for entry and in the same order, and [construir_arvore] and
    [gerar_codigos] on a fresh object holding that table return the root
    and the code table that the encoding object holds.  Behind this: the
    queue orders entries with different counters without comparing nodes
    ([entrada_lt_desempate]), the counters in the queue are pairwise
    different and the entry taken is the least one
    ([fila_de_construir_arvore], [heappop_minimo]). *)
Theorem arvore_reconstruida_igual :
  (forall h1 h2 t,
      tabela_freq h1 = Some t -> tabela_freq h2 = Some t ->
      fst (construir_arvore h1) = fst (construir_arvore h2))
  /\ (forall B saida h c,
         encode B saida = (Ok tt, (h, Some c)) ->
         exists t p dados r cod,
           ler_container c = (Ok (t, p, dados), [])
           /\ tabela_freq h = Some t
           /\ raiz h = Some r
           /\ codigos h = Some cod
           /\ fst (construir_arvore (set_tabela_freq t novo)) = Ok r
           /\ fst (gerar_codigos (set_tabela_freq t novo)) = Ok cod).
Proof.
  split.
  { intros h1 h2 t H1 H2.
    now rewrite (construir_arvore_so_tabela h1 t H1),
      (construir_arvore_so_tabela h2 t H2). }
  intros B saida h c HE. pose proof (encode_ok_nao_vazio _ _ _ HE) as HB.
  destruct (encode_passos B saida HB)
    as (fr & e & d & bits & dados & HA & HK & Hb & Hn & HP & HU & HD & HE').
  rewrite HE' in HE. clear HE'.
  destruct (escrever_container (tabela_de B) (padding_de bits) dados [])
    as [res f] eqn:W.
  simpl in HE. injection HE as -> <- <-.
  apply escrever_container_inv in W. destruct W as (-> & C & P & L).
  exists (tabela_de B), (padding_de bits), dados, (mkNo fr None e d),
    (_gerar_rec (mkNo fr None e d) [] []).
  split; [|split; [reflexivity|split; [reflexivity|split; [reflexivity|]]]].
  - unfold ler_container, bind.
    rewrite ler_cabecalho_layout by (auto using tabela_de_NoDup).
    cbv [read_tudo raise ret].
    assert (LD : (length dados =? 0)%nat = false)
      by (apply Nat.eqb_neq; destruct dados; [contradiction | discriminate]).
    rewrite LD. reflexivity.
  - split.
    + rewrite construir_arvore_tabela. exact HA.
    + apply gerar_codigos_tabela. exact HA.
Qed.

Lemma arvore_reconstruida_igual_witness :
  encode [x61; x61; x61; x62] None
  = (Ok tt,
     (mkHuffman (Some [x61; x61; x61; x62]) (Some [(x61, 3); (x62, 1)])
        (Some (mkNo 4 None (Some (mkNo 1 (Some x62) None None))
                    (Some (mkNo 3 (Some x61) None None))))
        (Some [(x62, ["0"]); (x61, ["1"])]),
      Some [x48; x55; x46; x31; x00; x00; x00; x02; x61; x00; x00; x00; x03;
            x62; x00; x00; x00; x01; x04; xe0]))
  /\ exists t p dados r cod,
    ler_container
      [x48; x55; x46; x31; x00; x00; x00; x02; x61; x00; x00; x00; x03;
       x62; x00; x00; x00; x01; x04; xe0]
    = (Ok (t, p, dados), [])
    /\ Some [(x61, 3); (x62, 1)] = Some t
    /\ Some (mkNo 4 None (Some (mkNo 1 (Some x62) None None))
                  (Some (mkNo 3 (Some x61) None None))) = Some r
    /\ Some [(x62, ["0"]); (x61, ["1"])] = Some cod
    /\ fst (construir_arvore (set_tabela_freq t novo)) = Ok r
    /\ fst (gerar_codigos (set_tabela_freq t novo)) = Ok cod.
Proof.
  assert (H : encode [x61; x61; x61; x62] None
              = (Ok tt,
                 (mkHuffman (Some [x61; x61; x61; x62])
                    (Some [(x61, 3); (x62, 1)])
                    (Some (mkNo 4 None (Some (mkNo 1 (Some x62) None None))
                                (Some (mkNo 3 (Some x61) None None))))
                    (Some [(x62, ["0"]); (x61, ["1"])]),
                  Some [x48; x55; x46; x31; x00; x00; x00; x02; x61; x00;
                        x00; x00; x03; x62; x00; x00; x00; x01; x04; xe0])))
    by reflexivity.
  split; [exact H|].
  exact (proj2 arvore_reconstruida_igual _ _ _ _ H).
Defined.

(* ================================================================== *)
(** ** One distinct symbol *)

(** C3: for a frequency table with exactly one symbol, [construir_arvore]
    returns a root that is not a leaf, whose left child is the leaf of the
    symbol and whose right child is absent, and [gerar_codigos] gives the
    symbol the code 0, one bit long. *)
Theorem arvore_de_um_simbolo (s : byte) (fr : Z) :
  let folha := mkNo fr (Some s) None None in
  let r := mkNo fr None (Some folha) None in
  fst (construir_arvore (set_tabela_freq [(s, fr)] novo)) = Ok r
  /\ simbolo r = None
  /\ esquerdo r = Some folha
  /\ direito r = None
  /\ fst (gerar_codigos (set_tabela_freq [(s, fr)] novo)) = Ok [(s, ["0"])].
Proof.
  repeat split.
Qed.

(* ================================================================== *)
(** ** Packing and unpacking *)

Lemma length_formatar_08b (b : byte) : length (formatar_08b b) = 8%nat.
Proof. reflexivity. Qed.

(** Digit [j] of byte [i], counting from the left, is bit [7 - j] of the
    byte: the most significant bit comes first. *)
Lemma _bytes_para_bits_nth (dados : list byte) (i j : nat) :
  (i < length dados)%nat -> (j < 8)%nat ->
  nth (8 * i + j) (_bytes_para_bits dados) "0"
  = if Z.testbit (int_de (nth i dados x00)) (7 - Z.of_nat j)
    then "1" else "0".
Proof.
  revert i. induction dados as [|b r IH]; intros i Hi Hj; [simpl in Hi; lia|].
  unfold _bytes_para_bits.
  change (flat_map formatar_08b (b :: r))
    with (formatar_08b b ++ flat_map formatar_08b r).
  destruct i as [|i].
  - rewrite app_nth1 by (rewrite length_formatar_08b; lia).
    replace (8 * 0 + j)%nat with j by lia. simpl nth at 2.
    do 8 (destruct j as [|j]; [reflexivity|]). lia.
  - rewrite app_nth2 by (rewrite length_formatar_08b; lia).
    rewrite length_formatar_08b.
    replace (8 * S i + j - 8)%nat with (8 * i + j)%nat by lia.
    simpl nth at 2. apply IH; simpl in Hi; lia.
Qed.

(** C4: for every bit string [s], [_bits_para_bytes] returns bytes and a
    padding between 0 and 7, the number of zero bits to append to [s] to
    reach a multiple of 8; the bytes hold the padded string eight bits at a
    time, most significant bit first; the empty string gives no bytes and
    padding 0; and [_bytes_para_bits] followed by the removal of the last
    [padding] bits, as [descompactar_arquivo] does it, gives [s] back. *)
Theorem empacotar_desempacotar (s : list ascii) :
  cadeia_de_bits s ->
  exists dados padding,
    _bits_para_bytes s = Ok (dados, padding)
    /\ 0 <= padding <= 7
    /\ (Z.of_nat (length s) + padding) mod 8 = 0
    /\ (8 * length dados = length s + Z.to_nat padding)%nat
    /\ (forall i j, (i < length dados)%nat -> (j < 8)%nat ->
          nth (8 * i + j) (s ++ repeat "0" (Z.to_nat padding)) "0"
          = if Z.testbit (int_de (nth i dados x00)) (7 - Z.of_nat j)
            then "1" else "0")
    /\ _bytes_para_bits dados = s ++ repeat "0" (Z.to_nat padding)
    /\ aparar (_bytes_para_bits dados) padding = s
    /\ (s = [] -> dados = [] /\ padding = 0).
Proof.
  intros B.
  destruct (_bits_para_bytes_correta s B) as (dados & HP & HU & HL).
  destruct (padding_de_correto s) as [P M].
  assert (E : (if (length s =? 0)%nat then 0 else padding_de s) = padding_de s).
  { destruct (length s =? 0)%nat eqn:E; [|reflexivity].
    apply Nat.eqb_eq, length_zero_iff_nil in E. now subst. }
  rewrite E in HP. exists dados, (padding_de s).
  split; [exact HP|]. split; [exact P|]. split; [exact M|].
  split; [exact HL|]. split.
  { intros i j Hi Hj. rewrite <- HU. now apply _bytes_para_bits_nth. }
  split; [exact HU|]. split.
  { rewrite HU. apply aparar_padding. lia. }
  intros ->. split; [|reflexivity].
  simpl in HL. destruct dados; [reflexivity | simpl in HL; lia].
Qed.

Lemma empacotar_desempacotar_witness :
  cadeia_de_bits ["1"; "0"; "1"; "1"; "0"; "0"; "0"; "1"; "1"; "1"]
  /\ exists dados padding,
    _bits_para_bytes ["1"; "0"; "1"; "1"; "0"; "0"; "0"; "1"; "1"; "1"]
    = Ok (dados, padding)
    /\ 0 <= padding <= 7
    /\ (Z.of_nat (length ["1"; "0"; "1"; "1"; "0"; "0"; "0"; "1"; "1"; "1"])
        + padding) mod 8 = 0
    /\ (8 * length dados
        = length ["1"; "0"; "1"; "1"; "0"; "0"; "0"; "1"; "1"; "1"]
          + Z.to_nat padding)%nat
    /\ (forall i j, (i < length dados)%nat -> (j < 8)%nat ->
          nth (8 * i + j)
              (["1"; "0"; "1"; "1"; "0"; "0"; "0"; "1"; "1"; "1"]
                 ++ repeat "0" (Z.to_nat padding)) "0"
          = if Z.testbit (int_de (nth i dados x00)) (7 - Z.of_nat j)
            then "1" else "0")
    /\ _bytes_para_bits dados
       = ["1"; "0"; "1"; "1"; "0"; "0"; "0"; "1"; "1"; "1"]
           ++ repeat "0" (Z.to_nat padding)
    /\ aparar (_bytes_para_bits dados) padding
       = ["1"; "0"; "1"; "1"; "0"; "0"; "0"; "1"; "1"; "1"]
    /\ (["1"; "0"; "1"; "1"; "0"; "0"; "0"; "1"; "1"; "1"] = [] ->
        dados = [] /\ padding = 0).
Proof.
  assert (B : cadeia_de_bits
                ["1"; "0"; "1"; "1"; "0"; "0"; "0"; "1"; "1"; "1"]).
  { repeat constructor; (left; reflexivity) || (right; reflexivity). }
  split; [exact B|].
  apply (empacotar_desempacotar
           ["1"; "0"; "1"; "1"; "0"; "0"; "0"; "1"; "1"; "1"] B).
Defined.

(* ================================================================== *)
(** ** The prefix property *)

(** C7: for every frequency table with at least two symbols, the tree is
    built, every symbol of the table and no other gets a code, and no code
    is a prefix of the code of another symbol. *)
Theorem codigos_livres_de_prefixo (t : dict Z) :
  (2 <= length t)%nat ->
  exists cod,
    fst (gerar_codigos (set_tabela_freq t novo)) = Ok cod
    /\ (forall s, In s (dict_keys t) <-> dict_get cod s <> None)
    /\ forall s1 s2 c1 c2,
        s1 <> s2 ->
        dict_get cod s1 = Some c1 -> dict_get cod s2 = Some c2 ->
        ~ prefixo c1 c2.
Proof.
  intros L.
  destruct (arvore_de_correta t) as (fr & e & d & HA & HF).
  { intros ->. simpl in L. lia. }
  exists (_gerar_rec (mkNo fr None e d) [] []).
  split; [now apply gerar_codigos_tabela|]. split.
  - intros s. rewrite <- (HF s). split.
    + intros [p P]. now apply (_gerar_rec_tem _ _ _ P).
    + intros N. destruct (dict_get _ s) as [c|] eqn:G; [|contradiction].
      exists c. now apply codigos_sao_caminhos.
  - intros s1 s2 c1 c2 N G1 G2 [r ->].
    apply codigos_sao_caminhos in G1, G2.
    destruct (caminho_ate_prefixo _ _ _ G1 _ _ G2) as [_ E]. contradiction.
Qed.

Lemma codigos_livres_de_prefixo_witness :
  (2 <= length [(x61, 3); (x62, 2); (x63, 1)])%nat
  /\ exists cod,
    fst (gerar_codigos (set_tabela_freq [(x61, 3); (x62, 2); (x63, 1)] novo))
    = Ok cod
    /\ (forall s, In s (dict_keys [(x61, 3); (x62, 2); (x63, 1)])
                  <-> dict_get cod s <> None)
    /\ forall s1 s2 c1 c2,
        s1 <> s2 ->
        dict_get cod s1 = Some c1 -> dict_get cod s2 = Some c2 ->
        ~ prefixo c1 c2.
Proof.
  assert (L : (2 <= length [(x61, 3); (x62, 2); (x63, 1)])%nat)
    by (simpl; lia).
  split; [exact L|].
  apply (codigos_livres_de_prefixo [(x61, 3); (x62, 2); (x63, 1)] L).
Defined.

(* ================================================================== *)
(** ** Failures of [compactar] and the output file *)

Lemma escrever_tabela_erro (t : dict Z) (f f' : list byte) (e : erro) :
  escrever_tabela t f = (Erro e, f') -> e = OverflowError.
Proof.
  revert f. induction t as [|[k v] r IH]; intros f H; simpl in H.
  - discriminate.
  - cbv [bind write lift] in H. unfold to_bytes in H.
    destruct ((0 <=? v) && (v <? 256 ^ Z.of_nat 4)).
    + eapply IH. exact H.
    + congruence.
Qed.

Lemma to_bytes_erro n x e : to_bytes n x = Erro e -> e = OverflowError.
Proof.
  unfold to_bytes. destruct ((0 <=? x) && _); congruence.
Qed.

Lemma escrever_container_erro t p dados f e :
  escrever_container t p dados [] = (Erro e, f) -> e = OverflowError.
Proof.
  unfold escrever_container. cbv [bind write lift].
  destruct (to_bytes 4 (Z.of_nat (length t))) as [nb|e1] eqn:E1.
  - destruct (escrever_tabela t _) as [[[]|e'] f1] eqn:E.
    + destruct (to_bytes 1 p) as [pb|e2] eqn:E2; [discriminate|].
      intros H. injection H as <- <-. eapply to_bytes_erro. exact E2.
    + intros H. injection H as <- <-. eapply escrever_tabela_erro. exact E.
  - intros H. injection H as <- <-. eapply to_bytes_erro. exact E1.
Qed.










(* ================================================================== *)
(** ** The empty input and the failures of encoding *)






(* ================================================================== *)
(** ** Containers that are not well formed *)

(** C8: a container whose header reads well, with nothing after the
    padding byte, and whose frequencies add up to more than zero is
    rejected with the missing data error, and the output file is not
    touched. *)
Theorem descompactar_sem_dados (texto : list byte -> list byte)
  (huff : list byte) (t : dict Z) (p : Z) (saida : arquivo) :
  ler_cabecalho huff = (Ok (t, p), []) ->
  0 < soma (dict_values t) ->
  reconstruir huff = Erro CorrompidoSemDados
  /\ descompactar_arquivo texto huff saida = (Erro CorrompidoSemDados, saida).
Proof.
  intros H S.
  assert (R : reconstruir huff = Erro CorrompidoSemDados).
  { unfold reconstruir, ler_container, bind. rewrite H.
    cbv [read_tudo raise ret]. simpl length. simpl Nat.eqb.
    apply Z.ltb_lt in S. rewrite S. reflexivity. }
  split; [exact R|]. unfold descompactar_arquivo. now rewrite R.
Qed.

Lemma descompactar_sem_dados_witness :
  ler_cabecalho
    [x48; x55; x46; x31; x00; x00; x00; x02; x61; x00; x00; x00; x03;
     x62; x00; x00; x00; x01; x04]
  = (Ok ([(x61, 3); (x62, 1)], 4), [])
  /\ 0 < soma (dict_values [(x61, 3); (x62, 1)])
  /\ reconstruir
       [x48; x55; x46; x31; x00; x00; x00; x02; x61; x00; x00; x00; x03;
        x62; x00; x00; x00; x01; x04]
     = Erro CorrompidoSemDados
  /\ descompactar_arquivo (fun d => d)
       [x48; x55; x46; x31; x00; x00; x00; x02; x61; x00; x00; x00; x03;
        x62; x00; x00; x00; x01; x04] None
     = (Erro CorrompidoSemDados, None).
Proof.
  assert (H : ler_cabecalho
                [x48; x55; x46; x31; x00; x00; x00; x02; x61; x00; x00; x00;
                 x03; x62; x00; x00; x00; x01; x04]
              = (Ok ([(x61, 3); (x62, 1)], 4), [])) by reflexivity.
  assert (S : 0 < soma (dict_values [(x61, 3); (x62, 1)])) by reflexivity.
  split; [exact H|]. split; [exact S|].
  apply (descompactar_sem_dados (fun d => d) _ _ _ None H S).
Defined.

Lemma percorrer_erro raiz total bits :
  forall no emitidos e,
    percorrer raiz total bits no emitidos = Erro e -> e = NavegacaoInvalida.
Proof.
  induction bits as [|bit bits IH]; intros no emitidos e H; simpl in H.
  - discriminate.
  - destruct (if Ascii.eqb bit "0" then esquerdo no else direito no)
      as [no'|]; [|congruence].
    destruct (simbolo no') as [s|]; [|eauto].
    destruct (Z.of_nat (length (emitidos ++ [s])) =? total);
      [discriminate | eauto].
Qed.

(** C9, as stated, fails: a container whose padding byte is 8 is decoded,
    eight of its sixteen bits dropped, and the symbol a comes out. *)
Lemma padding_8_aceito :
  ler_cabecalho container_padding_8 = (Ok ([(x61, 1)], 8), [x00; x00])
  /\ 7 < 8
  /\ reconstruir container_padding_8 = Ok [x61].
Proof. repeat split. Qed.

(** C9, as amended: the padding byte is not validated.  For a container
    whose header reads well, with a table that is not empty and a padding
    byte above 7, and that passes the missing data check, decoding drops
    the last [padding] bits of the unpacked data (all of them when there
    are fewer) and walks the tree over the rest: its result is the result
    of that walk, the bytes emitted or the invalid navigation error. *)
Theorem descompactar_padding_nao_validado (huff : list byte) (t : dict Z)
  (p : Z) (dados : list byte) :
  ler_cabecalho huff = (Ok (t, p), dados) ->
  7 < p ->
  t <> [] ->
  (dados = [] -> soma (dict_values t) <= 0) ->
  exists r,
    arvore_de t = Ok r
    /\ reconstruir huff
       = percorrer r (soma (dict_values t))
                   (sem_final (_bytes_para_bits dados) (Z.to_nat p)) r []
    /\ forall e, reconstruir huff = Erro e -> e = NavegacaoInvalida.
Proof.
  intros H P T S.
  destruct (arvore_de_correta t T) as (fr & e & d & HA & _).
  exists (mkNo fr None e d). split; [exact HA|].
  assert (R : reconstruir huff
              = percorrer (mkNo fr None e d) (soma (dict_values t))
                  (sem_final (_bytes_para_bits dados) (Z.to_nat p))
                  (mkNo fr None e d) []).
  { unfold reconstruir, ler_container, bind. rewrite H.
    cbv [read_tudo raise ret].
    assert (C : (length dados =? 0)%nat && (0 <? soma (dict_values t))
                = false).
    { destruct dados as [|x dados']; [|reflexivity].
      specialize (S eq_refl). simpl. apply Z.ltb_ge. exact S. }
    rewrite C. cbv beta iota zeta.
    pose proof (construir_arvore_tabela t) as K. rewrite HA in K.
    destruct (construir_arvore (set_tabela_freq t novo)) as [r' h'].
    simpl in K. subst r'.
    unfold aparar. destruct (Z.ltb_spec 0 p); [reflexivity | lia]. }
  split; [exact R|].
  intros e' E. rewrite R in E. eapply percorrer_erro. exact E.
Qed.

Lemma descompactar_padding_nao_validado_witness :
  ler_cabecalho container_padding_8 = (Ok ([(x61, 1)], 8), [x00; x00])
  /\ exists r,
    arvore_de [(x61, 1)] = Ok r
    /\ reconstruir container_padding_8
       = percorrer r (soma (dict_values [(x61, 1)]))
                   (sem_final (_bytes_para_bits [x00; x00]) (Z.to_nat 8)) r []
    /\ forall e, reconstruir container_padding_8 = Erro e ->
                 e = NavegacaoInvalida.
Proof.
  assert (H : ler_cabecalho container_padding_8
              = (Ok ([(x61, 1)], 8), [x00; x00])) by reflexivity.
  split; [exact H|].
  apply (descompactar_padding_nao_validado container_padding_8 _ _ _ H).
  - reflexivity.
  - discriminate.
  - discriminate.
Defined.

(** C10, as stated, fails: decoding can return the empty byte sequence.  A
    container that declares a symbol with frequency zero and holds no data
    decodes to nothing, and the output file is written empty. *)
Lemma descompactar_saida_vazia :
  ler_cabecalho container_frequencia_zero = (Ok ([(x61, 0)], 0), [])
  /\ reconstruir container_frequencia_zero = Ok []
  /\ descompactar_arquivo (fun d => d) container_frequencia_zero None
     = (Ok tt, Some []).
Proof. repeat split. Qed.

(** C10, as amended: decoding a container that declares no symbol raises
    the error of the empty table when the tree is rebuilt, whatever its
    padding byte and its data, and writes no output; and [compactar] writes
    a container for non-empty inputs only. *)
Theorem descompactar_sem_simbolos (texto : list byte -> list byte)
  (p : byte) (dados : list byte) (saida : arquivo) :
  ler_cabecalho (container_sem_simbolos p dados) = (Ok ([], int_de p), dados)
  /\ reconstruir (container_sem_simbolos p dados) = Erro ArquivoVazio
  /\ descompactar_arquivo texto (container_sem_simbolos p dados) saida
     = (Erro ArquivoVazio, saida)
  /\ forall B saida' w, encode B saida' = (Ok tt, w) -> B <> [].
Proof.
  assert (R : reconstruir (container_sem_simbolos p dados) = Erro ArquivoVazio).
  { unfold reconstruir, ler_container, bind.
    change (ler_cabecalho (container_sem_simbolos p dados))
      with (@Ok (dict Z * Z) ([], int_de p), dados).
    cbv [read_tudo raise ret].
    change (soma (dict_values [])) with 0. change (0 <? 0) with false.
    rewrite andb_false_r. reflexivity. }
  split; [reflexivity|]. split; [exact R|]. split.
  - unfold descompactar_arquivo. now rewrite R.
  - intros B saida' w. apply encode_ok_nao_vazio.
Qed.

Lemma descompactar_sem_simbolos_witness :
  encode [x61] None
  = (Ok tt,
     (mkHuffman (Some [x61]) (Some [(x61, 1)])
        (Some (mkNo 1 None (Some (mkNo 1 (Some x61) None None)) None))
        (Some [(x61, ["0"])]),
      Some [x48; x55; x46; x31; x00; x00; x00; x01; x61; x00; x00; x00; x01;
            x07; x00]))
  /\ [x61] <> [].
Proof.
  assert (H : encode [x61] None
              = (Ok tt,
                 (mkHuffman (Some [x61]) (Some [(x61, 1)])
                    (Some (mkNo 1 None (Some (mkNo 1 (Some x61) None None))
                                None))
                    (Some [(x61, ["0"])]),
                  Some [x48; x55; x46; x31; x00; x00; x00; x01; x61; x00;
                        x00; x00; x01; x07; x00]))) by reflexivity.
  split; [exact H|].
  exact (proj2 (proj2 (proj2 (descompactar_sem_simbolos (fun d => d) x00 []
                                None))) [x61] None _ H).
Defined.

(* ================================================================== *)
(** ** More on the frequency table *)

Lemma gerar_tabela_frequencia_carregado (h : Huffman) (B : list byte) :
  bytes_dados h = Some B ->
  gerar_tabela_frequencia h = (Ok (tabela_de B), set_tabela_freq (tabela_de B) h).
Proof.
  intros H. cbv [gerar_tabela_frequencia bind get put ret]. rewrite H.
  reflexivity.
Qed.

(** X1: on an object that holds the bytes [B], [gerar_tabela_frequencia]
    returns and caches a table that gives every byte of [B] the number of
    its occurrences and has no entry for a byte that does not occur; the
    other fields of the object are left as they were. *)
Theorem gerar_tabela_frequencia_conta (h : Huffman) (B : list byte) :
  bytes_dados h = Some B ->
  exists t,
    gerar_tabela_frequencia h
    = (Ok t, mkHuffman (bytes_dados h) (Some t) (raiz h) (codigos h))
    /\ forall b,
        dict_get t b
        = if (count_occ Byte.byte_eq_dec B b =? 0)%nat then None
          else Some (Z.of_nat (count_occ Byte.byte_eq_dec B b)).
Proof.
  intros H. exists (tabela_de B). split.
  - now apply gerar_tabela_frequencia_carregado.
  - intros b. rewrite tabela_de_get.
    destruct (count_occ Byte.byte_eq_dec B b); reflexivity.
Qed.

Lemma gerar_tabela_frequencia_conta_witness :
  exists t,
    gerar_tabela_frequencia (mkHuffman (Some [x61; x62; x61]) None None None)
    = (Ok t, mkHuffman (Some [x61; x62; x61]) (Some t) None None)
    /\ forall b,
        dict_get t b
        = if (count_occ Byte.byte_eq_dec [x61; x62; x61] b =? 0)%nat
          then None
          else Some (Z.of_nat (count_occ Byte.byte_eq_dec [x61; x62; x61] b)).
Proof.
  apply (gerar_tabela_frequencia_conta
           (mkHuffman (Some [x61; x62; x61]) None None None)
           [x61; x62; x61]).
  reflexivity.
Defined.

Lemma fold_contar_chaves (bs : list byte) (d : dict Z) :
  dict_keys (fold_left contar bs d)
  = fold_left (fun ks b => if in_dec Byte.byte_eq_dec b ks then ks
                           else ks ++ [b]) bs (dict_keys d).
Proof.
  revert d. induction bs as [|b r IH]; intros d; simpl; [reflexivity|].
  rewrite IH. f_equal. unfold contar. apply dict_set_chaves.
Qed.

Lemma primeiras_ocorrencias_snoc (bs : list byte) (b : byte) :
  primeiras_ocorrencias (bs ++ [b])
  = if in_dec Byte.byte_eq_dec b (primeiras_ocorrencias bs)
    then primeiras_ocorrencias bs
    else primeiras_ocorrencias bs ++ [b].
Proof.
  unfold primeiras_ocorrencias. rewrite rev_app_distr. simpl rev at 1.
  simpl app. simpl nodup.
  destruct (in_dec Byte.byte_eq_dec b (rev bs)) as [I|I];
    destruct (in_dec Byte.byte_eq_dec b
                (rev (nodup Byte.byte_eq_dec (rev bs)))) as [J|J];
    try reflexivity.
  - exfalso. apply J. rewrite <- in_rev. now apply nodup_In.
  - exfalso. apply I. rewrite <- in_rev in J. now apply nodup_In in J.
Qed.

(** X2: the keys of the frequency table are the distinct bytes of the
    input, each once, in the order of their first occurrence: the order in
    which the dict of [gerar_tabela_frequencia] is iterated. *)
Theorem tabela_de_ordem (B : list byte) :
  dict_keys (tabela_de B) = primeiras_ocorrencias B
  /\ NoDup (dict_keys (tabela_de B)).
Proof.
  split; [|apply tabela_de_NoDup].
  unfold tabela_de. rewrite fold_contar_chaves. simpl dict_keys.
  induction B as [|b r IH] using rev_ind; [reflexivity|].
  rewrite fold_left_app. simpl fold_left.
  rewrite primeiras_ocorrencias_snoc, IH. reflexivity.
Qed.

(** X3: the frequencies of the table add up to the length of the input,
    each of them is at least 1 and at most that length, and the table has
    at most 256 entries. *)
Theorem tabela_de_totais (B : list byte) :
  soma (dict_values (tabela_de B)) = Z.of_nat (length B)
  /\ (forall k v, In (k, v) (tabela_de B) -> 1 <= v <= Z.of_nat (length B))
  /\ (length (tabela_de B) <= 256)%nat
  /\ (length (tabela_de B) <= length B)%nat.
Proof.
  split; [apply tabela_de_soma|]. split; [|split].
  - intros k v I. apply tabela_de_valores in I. destruct I as [-> L].
    split; [exact L|]. apply inj_le, count_occ_bound.
  - apply dict_length_256, tabela_de_NoDup.
  - pose proof (tabela_de_NoDup B) as N.
    apply NoDup_incl_length with (l' := B) in N.
    + unfold dict_keys in N. now rewrite length_map in N.
    + intros b I. now apply tabela_de_chaves.
Qed.

Lemma tabela_de_totais_witness :
  In (x61, 3) (tabela_de [x61; x62; x61; x61])
  /\ 1 <= 3 <= Z.of_nat (length [x61; x62; x61; x61]).
Proof.
  assert (I : In (x61, 3) (tabela_de [x61; x62; x61; x61]))
    by (left; reflexivity).
  split; [exact I|].
  exact (proj1 (proj2 (tabela_de_totais [x61; x62; x61; x61])) x61 3 I).
Defined.

(* ================================================================== *)
(** ** More on the tree *)

Lemma construir_arvore_resultado (h : Huffman) (t : dict Z) (r : NoHuffman) :
  tabela_freq h = Some t -> arvore_de t = Ok r ->
  construir_arvore h = (Ok r, set_raiz r h).
Proof.
  destruct h as [bd tf rz cod]. simpl. intros -> H.
  cbv [construir_arvore bind get ret raise lift put tabela_freq set_raiz
       bytes_dados raiz codigos].
  now rewrite H.
Qed.

(** The first component of a queue entry is the frequency of its node. *)
Lemma frequencias_das_entradas_empilhar (itens : dict Z) heap c :
  Forall (fun x => fst (fst x) = freq (snd x)) heap ->
  Forall (fun x => fst (fst x) = freq (snd x))
         (fst (empilhar_folhas itens heap c)).
Proof.
  revert heap c. induction itens as [|[b fr] r IH]; intros heap c H; simpl.
  - exact H.
  - apply IH. eapply Permutation_Forall; [symmetry; apply heappush_perm|].
    constructor; [reflexivity | exact H].
Qed.

Lemma arvore_de_dois (t : dict Z) :
  (2 <= length t)%nat ->
  arvore_de t
  = primeiro_no (combinar (length t) (fst (empilhar_folhas t [] 0))
                          (snd (empilhar_folhas t [] 0))).
Proof.
  intros L. pose proof (empilhar_folhas_length t [] 0) as LH.
  rewrite Nat.add_0_r in LH. unfold arvore_de.
  destruct t as [|kv t']; [simpl in L; lia|].
  destruct (empilhar_folhas (kv :: t') [] 0) as [heap c]. simpl fst in *.
  simpl snd. rewrite LH.
  assert (E1 : (S (length t') =? 1)%nat = false)
    by (apply Nat.eqb_neq; simpl in L; lia).
  simpl length. now rewrite E1.
Qed.

(** A property of the nodes in the queue that does not depend on their
    order and survives the merge of two nodes holds of the root, for a
    table with two entries or more. *)
Lemma arvore_de_geral (Q : list NoHuffman -> Prop) (t : dict Z) :
  (forall l l', Permutation l l' -> Q l -> Q l') ->
  (forall n1 n2 l,
      Q (n1 :: n2 :: l) ->
      Q (mkNo (freq n1 + freq n2) None (Some n1) (Some n2) :: l)) ->
  Q (map folha_de t) ->
  (2 <= length t)%nat ->
  exists fr e d,
    arvore_de t = Ok (mkNo fr None (Some e) (Some d))
    /\ Q [mkNo fr None (Some e) (Some d)].
Proof.
  intros Hperm Hpasso H0 L. rewrite (arvore_de_dois t L).
  pose proof (empilhar_folhas_length t [] 0) as LH.
  pose proof (empilhar_folhas_nos t [] 0) as PH.
  remember (fst (empilhar_folhas t [] 0)) as heap eqn:Eh.
  remember (snd (empilhar_folhas t [] 0)) as c eqn:Ec.
  assert (FH : Forall (fun x => fst (fst x) = freq (snd x)) heap).
  { subst heap. apply frequencias_das_entradas_empilhar. constructor. }
  clear Eh Ec.
  simpl in PH. rewrite app_nil_r in PH. rewrite Nat.add_0_r in LH.
  destruct (combinar_invariante
              (fun l _ => Forall (fun x => fst (fst x) = freq (snd x)) l
                          /\ Q (map snd l)))
    with (fuel := length t) (heap := heap) (c := c) as [c' [F R]].
  - intros l l' k P [F R]. split.
    + eapply Permutation_Forall; eassumption.
    + eapply Hperm; [|exact R]. now apply Permutation_map.
  - intros f1 c1 n1 f2 c2 n2 l k [F R].
    inversion F as [|? ? E1' F']; subst. inversion F' as [|? ? E2' F'']; subst.
    simpl in E1', E2'. subst f1 f2. split.
    + constructor; [reflexivity | exact F''].
    + simpl. now apply Hpasso.
  - split; [exact FH|]. eapply Hperm; [symmetry; exact PH | exact H0].
  - destruct (combinar_final (length t) heap c) as (f & k & fr & e & d & E);
      [lia|].
    rewrite E in *. simpl in R. simpl. eauto.
Qed.

Lemma folhas_pai (f : Z) (n1 n2 : NoHuffman) :
  folhas (mkNo f None (Some n1) (Some n2)) = folhas n1 ++ folhas n2.
Proof. reflexivity. Qed.

Lemma flat_map_folhas_folha_de (t : dict Z) :
  flat_map folhas (map folha_de t) = t.
Proof.
  induction t as [|[b fr] r IH]; [reflexivity|]. simpl. now rewrite IH.
Qed.

Lemma arvore_de_folhas (t : dict Z) :
  t <> [] -> exists r, arvore_de t = Ok r /\ Permutation (folhas r) t.
Proof.
  intros Hne. destruct t as [|[b fr] [|kv2 t']]; [contradiction| |].
  - eexists. split; [reflexivity|]. simpl. apply Permutation_refl.
  - set (t := (b, fr) :: kv2 :: t').
    destruct (arvore_de_geral
                (fun l => Permutation (flat_map folhas l) t) t)
      as (f & e & d & HA & R).
    + intros l l' P H. rewrite <- H. symmetry.
      now apply Permutation_flat_map.
    + intros n1 n2 l H. rewrite <- H. simpl. now rewrite app_assoc.
    + now rewrite flat_map_folhas_folha_de.
    + simpl. lia.
    + eexists. split; [exact HA|]. simpl in R. now rewrite app_nil_r in R.
Qed.

(** X4: from a table that is not empty [construir_arvore] builds, returns
    and caches a tree whose leaves, read from left to right, are the
    entries of the table in some order: every symbol sits on exactly one
    leaf, with its frequency. *)
Theorem construir_arvore_folhas (h : Huffman) (t : dict Z) :
  tabela_freq h = Some t -> t <> [] ->
  exists r,
    construir_arvore h
    = (Ok r, mkHuffman (bytes_dados h) (Some t) (Some r) (codigos h))
    /\ Permutation (folhas r) t.
Proof.
  intros H Hne. destruct (arvore_de_folhas t Hne) as [r [HA P]].
  exists r. split; [|exact P].
  rewrite (construir_arvore_resultado h t r H HA).
  unfold set_raiz. now rewrite H.
Qed.

Lemma construir_arvore_folhas_witness :
  exists r,
    construir_arvore
      (mkHuffman None (Some [(x61, 3); (x62, 2); (x63, 1)]) None None)
    = (Ok r, mkHuffman None (Some [(x61, 3); (x62, 2); (x63, 1)]) (Some r)
               None)
    /\ Permutation (folhas r) [(x61, 3); (x62, 2); (x63, 1)].
Proof.
  apply (construir_arvore_folhas
           (mkHuffman None (Some [(x61, 3); (x62, 2); (x63, 1)]) None None)
           [(x61, 3); (x62, 2); (x63, 1)]).
  - reflexivity.
  - discriminate.
Defined.

Lemma soma_app (a b : list Z) : soma (a ++ b) = soma a + soma b.
Proof.
  induction a as [|x a IH]; simpl app.
  - unfold soma at 2. simpl. lia.
  - rewrite !soma_cons, IH. lia.
Qed.

Lemma soma_perm (a b : list Z) : Permutation a b -> soma a = soma b.
Proof.
  induction 1; rewrite ?soma_cons; lia.
Qed.

Lemma pesos_somados_freq (no : NoHuffman) :
  pesos_somados no -> freq no = soma (map snd (folhas no)).
Proof.
  induction 1 as [f s e d|e d He IHe Hd IHd].
  - simpl. unfold soma. simpl. lia.
  - rewrite folhas_pai, map_app, soma_app, <- IHe, <- IHd. reflexivity.
Qed.

Lemma cheia_tem_folha (no : NoHuffman) : cheia no -> folhas no <> [].
Proof.
  induction 1 as [f s e d|f e d He IHe Hd IHd]; [discriminate|].
  rewrite folhas_pai. intros E. apply app_eq_nil in E. tauto.
Qed.

(** The shape of the tree of a table with two entries or more. *)
Lemma arvore_de_estrutura (t : dict Z) :
  (2 <= length t)%nat ->
  exists fr e d,
    arvore_de t = Ok (mkNo fr None (Some e) (Some d))
    /\ Permutation (folhas (mkNo fr None (Some e) (Some d))) t
    /\ pesos_somados (mkNo fr None (Some e) (Some d))
    /\ cheia (mkNo fr None (Some e) (Some d)).
Proof.
  intros L.
  destruct (arvore_de_geral
              (fun l => Permutation (flat_map folhas l) t
                        /\ Forall pesos_somados l /\ Forall cheia l) t)
    as (f & e & d & HA & P & W & C); [| | |exact L|].
  - intros l l' P (H & W & C). repeat split.
    + rewrite <- H. symmetry. now apply Permutation_flat_map.
    + eapply Permutation_Forall; eassumption.
    + eapply Permutation_Forall; eassumption.
  - intros n1 n2 l (H & W & C).
    inversion W as [|? ? W1 W']; subst. inversion W' as [|? ? W2 W'']; subst.
    inversion C as [|? ? C1 C']; subst. inversion C' as [|? ? C2 C'']; subst.
    repeat split.
    + rewrite <- H. simpl. now rewrite app_assoc.
    + constructor; [now constructor | exact W''].
    + constructor; [now constructor | exact C''].
  - repeat split.
    + now rewrite flat_map_folhas_folha_de.
    + apply Forall_forall. intros n I. apply in_map_iff in I.
      destruct I as [[b fr] [<- _]]. constructor.
    + apply Forall_forall. intros n I. apply in_map_iff in I.
      destruct I as [[b fr] [<- _]]. constructor.
  - exists f, e, d. split; [exact HA|]. simpl in P. rewrite app_nil_r in P.
    inversion W; subst. inversion C; subst. auto.
Qed.

(** X5: the tree is weighted as Huffman's algorithm asks: the frequency of
    the root is the sum of the frequencies of the table and, from two
    symbols on, the frequency of every internal node is the sum of the
    frequencies of its two children. *)
Theorem construir_arvore_pesos (h : Huffman) (t : dict Z) :
  tabela_freq h = Some t -> t <> [] ->
  exists r,
    fst (construir_arvore h) = Ok r
    /\ freq r = soma (dict_values t)
    /\ ((2 <= length t)%nat -> pesos_somados r).
Proof.
  intros H Hne. rewrite (construir_arvore_so_tabela h t H).
  destruct t as [|[b fr] [|kv2 t']]; [contradiction| |].
  - eexists. split; [reflexivity|]. split.
    + unfold soma. simpl. lia.
    + simpl. lia.
  - set (t := (b, fr) :: kv2 :: t').
    destruct (arvore_de_estrutura t) as (f & e & d & HA & P & W & C);
      [simpl; lia|].
    eexists. split; [exact HA|]. split; [|intros _; exact W].
    rewrite (pesos_somados_freq _ W). apply soma_perm.
    now apply Permutation_map.
Qed.

Lemma construir_arvore_pesos_witness :
  exists r,
    fst (construir_arvore
           (mkHuffman None (Some [(x61, 3); (x62, 2); (x63, 1)]) None None))
    = Ok r
    /\ freq r = soma (dict_values [(x61, 3); (x62, 2); (x63, 1)])
    /\ ((2 <= length [(x61, 3); (x62, 2); (x63, 1)])%nat -> pesos_somados r).
Proof.
  apply (construir_arvore_pesos
           (mkHuffman None (Some [(x61, 3); (x62, 2); (x63, 1)]) None None)
           [(x61, 3); (x62, 2); (x63, 1)]).
  - reflexivity.
  - discriminate.
Defined.

(* ================================================================== *)
(** ** More on the codes *)

Lemma caminho_ate_comprimento (no : NoHuffman) p s :
  caminho_ate no p s -> cheia no ->
  (length p + 1 <= length (folhas no))%nat.
Proof.
  induction 1 as [f s e d|f e d c s H IH|f e d c s H IH]; intros C.
  - simpl. lia.
  - inversion C as [|? ? d' Ce Cd]; subst.
    rewrite folhas_pai, length_app. specialize (IH Ce).
    pose proof (cheia_tem_folha _ Cd) as N.
    destruct (folhas d'); [contradiction|]. simpl in *. lia.
  - inversion C as [|? e' ? Ce Cd]; subst.
    rewrite folhas_pai, length_app. specialize (IH Cd).
    pose proof (cheia_tem_folha _ Ce) as N.
    destruct (folhas e'); [contradiction|]. simpl in *. lia.
Qed.

(** X6: the codes are bit strings of at least one bit, and with N symbols
    in the table, two or more, no code is longer than N - 1 bits: the
    recursion of [_gerar_rec] and the paths of the decoder are that short. *)
Theorem codigos_comprimento (t : dict Z) (cod : dict (list ascii))
  (s : byte) (c : list ascii) :
  (2 <= length t)%nat ->
  fst (gerar_codigos (set_tabela_freq t novo)) = Ok cod ->
  dict_get cod s = Some c ->
  cadeia_de_bits c /\ (1 <= length c <= length t - 1)%nat.
Proof.
  intros L HG G.
  destruct (arvore_de_estrutura t L) as (f & e & d & HA & P & W & C).
  assert (E : cod = _gerar_rec (mkNo f None (Some e) (Some d)) [] [])
    by (rewrite (gerar_codigos_tabela t _ HA) in HG; congruence).
  rewrite E in G. clear E HG.
  apply codigos_sao_caminhos in G. split; [|split].
  - eapply caminho_ate_bits. exact G.
  - pose proof (caminho_ate_interno _ _ _ G eq_refl).
    destruct c; [contradiction | simpl; lia].
  - pose proof (caminho_ate_comprimento _ _ _ G C) as K.
    rewrite (Permutation_length P) in K. lia.
Qed.

Lemma codigos_comprimento_witness :
  (2 <= length [(x61, 3); (x62, 2); (x63, 1)])%nat
  /\ cadeia_de_bits ["1"; "0"]
  /\ (1 <= length ["1"; "0"]
      <= length [(x61, 3); (x62, 2); (x63, 1)] - 1)%nat.
Proof.
  assert (L : (2 <= length [(x61, 3); (x62, 2); (x63, 1)])%nat)
    by (simpl; lia).
  split; [exact L|].
  apply (codigos_comprimento [(x61, 3); (x62, 2); (x63, 1)]
           [(x61, ["0"]); (x63, ["1"; "0"]); (x62, ["1"; "1"])]
           x63 ["1"; "0"] L).
  - reflexivity.
  - reflexivity.
Defined.

(* ================================================================== *)
(** ** More on the walk of the tree *)

(** In a tree whose internal nodes have their two children no bit leads
    to an absent child. *)
Lemma percorrer_cheia (raiz : NoHuffman) (total : Z) :
  cheia raiz -> simbolo raiz = None ->
  forall bits no emitidos,
    cheia no -> simbolo no = None ->
    exists saida, percorrer raiz total bits no emitidos = Ok saida.
Proof.
  intros Cr Sr. induction bits as [|bit bits IH]; intros no emitidos C S.
  - simpl. eauto.
  - inversion C as [f s e d E|f e d Ce Cd E]; subst; [discriminate|].
    simpl.
    assert (K : forall n, cheia n ->
              exists saida,
                match simbolo n with
                | Some s =>
                    if Z.of_nat (length (emitidos ++ [s])) =? total
                    then Ok (emitidos ++ [s])
                    else percorrer raiz total bits raiz (emitidos ++ [s])
                | None => percorrer raiz total bits n emitidos
                end = Ok saida).
    { intros n Cn. destruct (simbolo n) as [s|] eqn:En.
      - destruct (Z.of_nat (length (emitidos ++ [s])) =? total); eauto.
      - now apply IH. }
    destruct (Ascii.eqb bit "0"); apply K; assumption.
Qed.

Lemma folha_em_filho (no n : NoHuffman) (bit : ascii) (s : byte) :
  simbolo no = None ->
  (if Ascii.eqb bit "0" then esquerdo no else direito no) = Some n ->
  folha_em n s -> folha_em no s.
Proof.
  destruct no as [f o e d]. simpl. intros -> E [p P].
  destruct (Ascii.eqb bit "0"); subst.
  - exists ("0" :: p). now constructor.
  - exists ("1" :: p). now constructor.
Qed.

(** What the walk emits: symbols of leaves below the root, and no more of
    them than the total when the total is not reached yet. *)
Lemma percorrer_saida (raiz : NoHuffman) (total : Z) :
  simbolo raiz = None ->
  forall bits no emitidos saida,
    simbolo no = None ->
    (forall s, folha_em no s -> folha_em raiz s) ->
    percorrer raiz total bits no emitidos = Ok saida ->
    exists novos,
      saida = emitidos ++ novos
      /\ Forall (folha_em raiz) novos
      /\ (Z.of_nat (length emitidos) < total ->
          Z.of_nat (length saida) <= total).
Proof.
  intros Sr. induction bits as [|bit bits IH];
    intros no emitidos saida Sno Hno H; simpl in H.
  - injection H as <-. exists []. rewrite app_nil_r.
    repeat split; [constructor | lia].
  - destruct (if Ascii.eqb bit "0" then esquerdo no else direito no)
      as [n|] eqn:En; [|discriminate].
    pose proof (fun s => folha_em_filho no n bit s Sno En) as Hn.
    destruct (simbolo n) as [s|] eqn:Sn.
    + assert (Fs : folha_em raiz s).
      { apply Hno, Hn. exists []. destruct n as [f o e d]. simpl in Sn.
        subst o. constructor. }
      destruct (Z.eqb_spec (Z.of_nat (length (emitidos ++ [s]))) total)
        as [T|T].
      * injection H as <-. exists [s]. repeat split; [now constructor | lia].
      * apply IH in H; auto.
        destruct H as (novos & -> & F & B). exists (s :: novos).
        split; [now rewrite <- app_assoc|]. split; [now constructor|].
        intros Lt. apply B. rewrite length_app in T |- *. simpl in *. lia.
    + apply IH in H; auto.
Qed.

(* ================================================================== *)
(** ** More on decoding *)

(** Decoding after the header: the missing data check, the tree, the
    padding and the walk. *)
Lemma reconstruir_passos (huff : list byte) (t : dict Z) (p : Z)
  (dados : list byte) :
  ler_cabecalho huff = (Ok (t, p), dados) ->
  reconstruir huff
  = if (length dados =? 0)%nat && (0 <? soma (dict_values t))
    then Erro CorrompidoSemDados
    else match arvore_de t with
         | Erro e => Erro e
         | Ok r => percorrer r (soma (dict_values t))
                             (aparar (_bytes_para_bits dados) p) r []
         end.
Proof.
  intros H. unfold reconstruir, ler_container, bind. rewrite H.
  cbv [read_tudo raise ret].
  destruct ((length dados =? 0)%nat && (0 <? soma (dict_values t)));
    [reflexivity|].
  cbv beta iota zeta.
  pose proof (construir_arvore_tabela t) as K.
  destruct (construir_arvore (set_tabela_freq t novo)) as [r' h'].
  simpl in K. subst r'. destruct (arvore_de t); reflexivity.
Qed.

(** X7: with two symbols or more in the table, every internal node of the
    tree has its two children, and decoding accepts any data: once the
    header is read and the data are there, no bit leads to an absent child
    and [descompactar_arquivo] returns bytes, whatever the padding byte and
    the data hold. *)
Theorem descompactar_aceita_dados (huff : list byte) (t : dict Z) (p : Z)
  (dados : list byte) :
  ler_cabecalho huff = (Ok (t, p), dados) ->
  (2 <= length t)%nat ->
  dados <> [] ->
  exists r saida,
    arvore_de t = Ok r /\ cheia r /\ reconstruir huff = Ok saida.
Proof.
  intros H L D.
  destruct (arvore_de_estrutura t L) as (f & e & d & HA & P & W & C).
  rewrite (reconstruir_passos huff t p dados H), HA.
  assert (E : (length dados =? 0)%nat = false)
    by (apply Nat.eqb_neq; destruct dados; [contradiction | discriminate]).
  rewrite E. simpl andb. cbv iota.
  destruct (percorrer_cheia (mkNo f None (Some e) (Some d))
              (soma (dict_values t)) C eq_refl
              (aparar (_bytes_para_bits dados) p)
              (mkNo f None (Some e) (Some d)) [] C eq_refl) as [saida S].
  eauto.
Qed.

Lemma descompactar_aceita_dados_witness :
  ler_cabecalho
    [x48; x55; x46; x31; x00; x00; x00; x02; x61; x00; x00; x00; x03;
     x62; x00; x00; x00; x01; x09; xff; x5a]
  = (Ok ([(x61, 3); (x62, 1)], 9), [xff; x5a])
  /\ exists r saida,
    arvore_de [(x61, 3); (x62, 1)] = Ok r /\ cheia r
    /\ reconstruir
         [x48; x55; x46; x31; x00; x00; x00; x02; x61; x00; x00; x00; x03;
          x62; x00; x00; x00; x01; x09; xff; x5a]
       = Ok saida.
Proof.
  assert (H : ler_cabecalho
                [x48; x55; x46; x31; x00; x00; x00; x02; x61; x00; x00; x00;
                 x03; x62; x00; x00; x00; x01; x09; xff; x5a]
              = (Ok ([(x61, 3); (x62, 1)], 9), [xff; x5a])) by reflexivity.
  split; [exact H|].
  apply (descompactar_aceita_dados _ _ _ _ H).
  - simpl. lia.
  - discriminate.
Defined.

(** X8: what decoding returns is made of symbols of the table read from
    the header, and when the frequencies add up to a positive total it is
    at most that many bytes: the walk stops there, whatever bits are
    left. *)
Theorem descompactar_saida_limitada (huff : list byte) (t : dict Z) (p : Z)
  (dados saida : list byte) :
  ler_cabecalho huff = (Ok (t, p), dados) ->
  reconstruir huff = Ok saida ->
  (forall b, In b saida -> In b (dict_keys t))
  /\ (0 < soma (dict_values t) ->
      Z.of_nat (length saida) <= soma (dict_values t)).
Proof.
  intros H R. rewrite (reconstruir_passos huff t p dados H) in R.
  destruct ((length dados =? 0)%nat && (0 <? soma (dict_values t)));
    [discriminate|].
  destruct t as [|kv t']; [discriminate|].
  destruct (arvore_de_correta (kv :: t')) as (f & e & d & HA & HF);
    [discriminate|].
  rewrite HA in R.
  apply (percorrer_saida (mkNo f None e d) _ eq_refl) in R; auto.
  destruct R as (novos & -> & F & B). simpl app. split.
  - intros b I. apply HF. revert b I. now apply Forall_forall.
  - intros S. apply B. simpl. exact S.
Qed.

Lemma descompactar_saida_limitada_witness :
  ler_cabecalho
    [x48; x55; x46; x31; x00; x00; x00; x02; x61; x00; x00; x00; x03;
     x62; x00; x00; x00; x01; x00; xff; x5a]
  = (Ok ([(x61, 3); (x62, 1)], 0), [xff; x5a])
  /\ reconstruir
       [x48; x55; x46; x31; x00; x00; x00; x02; x61; x00; x00; x00; x03;
        x62; x00; x00; x00; x01; x00; xff; x5a]
     = Ok [x61; x61; x61; x61]
  /\ (forall b, In b [x61; x61; x61; x61]
                -> In b (dict_keys [(x61, 3); (x62, 1)]))
  /\ (0 < soma (dict_values [(x61, 3); (x62, 1)]) ->
      Z.of_nat (length [x61; x61; x61; x61])
      <= soma (dict_values [(x61, 3); (x62, 1)])).
Proof.
  assert (H : ler_cabecalho
                [x48; x55; x46; x31; x00; x00; x00; x02; x61; x00; x00; x00;
                 x03; x62; x00; x00; x00; x01; x00; xff; x5a]
              = (Ok ([(x61, 3); (x62, 1)], 0), [xff; x5a])) by reflexivity.
  assert (R : reconstruir
                [x48; x55; x46; x31; x00; x00; x00; x02; x61; x00; x00; x00;
                 x03; x62; x00; x00; x00; x01; x00; xff; x5a]
              = Ok [x61; x61; x61; x61]) by reflexivity.
  split; [exact H|]. split; [exact R|].
  apply (descompactar_saida_limitada _ _ _ _ _ H R).
Defined.

(* ================================================================== *)
(** ** The outcomes of encoding *)

Lemma dict_get_pertence {V} (d : dict V) (k : byte) (v : V) :
  dict_get d k = Some v -> In (k, v) d.
Proof.
  induction d as [|[k' v'] r IH]; simpl; [discriminate|].
  destruct (Byte.eqb k' k) eqn:E; auto.
  apply byte_eqb_eq in E. subst. intros [= ->]. auto.
Qed.

Lemma cabe_em_32_ocorrencias (B : list byte) :
  cabe_em_32 (tabela_de B)
  <-> forall b, Z.of_nat (count_occ Byte.byte_eq_dec B b) < 4294967296.
Proof.
  split; [|apply tabela_de_cabe].
  intros C b. pose proof (tabela_de_get B b) as G.
  destruct (count_occ Byte.byte_eq_dec B b) eqn:E; [lia|].
  apply dict_get_pertence, C in G. lia.
Qed.

(** X9: what [compactar] can do on freshly loaded bytes.  It returns
    normally exactly when the input is not empty and no byte occurs 2^32
    times or more; it raises the empty table error exactly on the empty
    input, and [OverflowError] exactly when some byte occurs 2^32 times or
    more; it raises nothing else: no missing key, no malformed bit
    string. *)
Theorem encode_resultados (B : list byte) (saida : arquivo) :
  (fst (encode B saida) = Ok tt
   <-> B <> []
       /\ forall b, Z.of_nat (count_occ Byte.byte_eq_dec B b) < 4294967296)
  /\ (fst (encode B saida) = Erro ArquivoVazio <-> B = [])
  /\ (fst (encode B saida) = Erro OverflowError
      <-> exists b, 4294967296 <= Z.of_nat (count_occ Byte.byte_eq_dec B b))
  /\ (forall e, fst (encode B saida) = Erro e ->
                e = ArquivoVazio \/ e = OverflowError).
Proof.
  assert (D : B = [] \/ B <> [])
    by (destruct B; [left; reflexivity | right; discriminate]).
  destruct D as [->|HB].
  { rewrite encode_vazio. simpl fst. repeat split; try discriminate; auto.
    - intros [N _]. contradiction.
    - intros [b H]. simpl in H. lia.
    - intros e [= <-]. auto. }
  destruct (encode_passos B saida HB)
    as (fr & e & d & bits & dados & HA & HK & Hb & Hn & HP & HU & HD & HE).
  rewrite HE. simpl fst.
  destruct (padding_de_correto bits) as [P _].
  pose proof (dict_length_256 _ (tabela_de_NoDup B)) as L.
  destruct (escrever_container (tabela_de B) (padding_de bits) dados [])
    as [[[]|e'] f] eqn:W; simpl fst.
  - apply escrever_container_inv in W. destruct W as (_ & C & _ & _).
    pose proof (proj1 (cabe_em_32_ocorrencias B) C) as C'.
    split; [split; [intros _; split; [exact HB | exact C'] | reflexivity]|].
    split; [split; [discriminate | intros ->; contradiction]|].
    split; [split; [discriminate|]|].
    + intros [b H]. specialize (C' b). lia.
    + intros e' [=].
  - pose proof (escrever_container_erro _ _ _ _ _ W) as ->.
    assert (NC : ~ cabe_em_32 (tabela_de B)).
    { intros C. rewrite escrever_container_ok in W by (auto; lia).
      discriminate. }
    split; [split; [discriminate|]|].
    { intros [_ C]. exfalso. apply NC. now apply cabe_em_32_ocorrencias. }
    split; [split; [discriminate | intros ->; contradiction]|].
    split; [split; [|reflexivity]|].
    + intros _.
      destruct (Forall_Exists_dec
                  (fun kv : byte * Z => snd kv < 4294967296)
                  (fun kv => Z_lt_dec (snd kv) 4294967296) (tabela_de B))
        as [F|X].
      * exfalso. apply NC. intros k v I.
        apply (Forall_forall _ (tabela_de B)) with (x := (k, v)) in F; auto.
        apply tabela_de_valores in I. simpl in F. lia.
      * apply Exists_exists in X. destruct X as [[k v] [I X]].
        apply tabela_de_valores in I. destruct I as [-> _].
        exists k. simpl in X. lia.
    + intros e' [= <-]. auto.
Qed.

Lemma encode_resultados_witness :
  ([x61; x62] <> []
   /\ forall b, Z.of_nat (count_occ Byte.byte_eq_dec [x61; x62] b)
                < 4294967296)
  /\ fst (encode [x61; x62] None) = Ok tt.
Proof.
  assert (H : [x61; x62] <> []
              /\ forall b, Z.of_nat (count_occ Byte.byte_eq_dec [x61; x62] b)
                           < 4294967296).
  { split; [discriminate|]. intros b. simpl.
    destruct (Byte.byte_eq_dec x61 b), (Byte.byte_eq_dec x62 b); simpl; lia. }
  split; [exact H|].
  exact (proj2 (proj1 (encode_resultados [x61; x62] None)) H).
Defined.

(* ================================================================== *)
(** ** The caches of the object *)

Lemma coerente_casos (B : list byte) (h : Huffman) :
  coerente B h ->
  h = mkHuffman (Some B) None None None
  \/ h = mkHuffman (Some B) (Some (tabela_de B)) None None
  \/ (exists r, arvore_de (tabela_de B) = Ok r
                /\ h = mkHuffman (Some B) (Some (tabela_de B)) (Some r) None)
  \/ (exists r, arvore_de (tabela_de B) = Ok r
                /\ h = mkHuffman (Some B) (Some (tabela_de B)) (Some r)
                         (Some (_gerar_rec r [] []))).
Proof.
  destruct h as [bd tf rz cd]. unfold coerente. simpl.
  intros (-> & Ht & Hr & Hc).
  destruct Hc as [->|(r & -> & HA & -> & ->)]; [|eauto 6].
  destruct Hr as [->|(-> & r & -> & HA)]; [|eauto 6].
  destruct Ht as [->| ->]; auto.
Qed.

Lemma coerente_carregado (B : list byte) :
  coerente B (mkHuffman (Some B) None None None).
Proof. repeat split; left; reflexivity. Qed.

(** X10: the caches always describe the loaded bytes.  After [ler_arquivo]
    the object is coherent, and [gerar_tabela_frequencia],
    [construir_arvore], [gerar_codigos] and [compactar] leave a coherent
    object coherent, whether they return or raise. *)
Theorem coerente_invariante (B : list byte) :
  (forall h0, coerente B (snd (ler_arquivo B h0)))
  /\ (forall h, coerente B h ->
        coerente B (snd (gerar_tabela_frequencia h))
        /\ coerente B (snd (construir_arvore h))
        /\ coerente B (snd (gerar_codigos h))
        /\ forall saida, coerente B (fst (snd (compactar (h, saida))))).
Proof.
  split; [intros h0; apply coerente_carregado|].
  intros h C.
  assert (K : forall tf rz cd,
             (tf = None \/ tf = Some (tabela_de B)) ->
             (rz = None
              \/ (tf = Some (tabela_de B)
                  /\ exists r, rz = Some r /\ arvore_de (tabela_de B) = Ok r)) ->
             (cd = None
              \/ exists r, rz = Some r /\ arvore_de (tabela_de B) = Ok r
                           /\ tf = Some (tabela_de B)
                           /\ cd = Some (_gerar_rec r [] [])) ->
             coerente B (mkHuffman (Some B) tf rz cd)).
  { intros tf rz cd H1 H2 H3. repeat split; assumption. }
  assert (HK : forall x : Huffman,
             (exists tf rz cd,
                 x = mkHuffman (Some B) tf rz cd
                 /\ (tf = None \/ tf = Some (tabela_de B))
                 /\ (rz = None
                     \/ (tf = Some (tabela_de B)
                         /\ exists r, rz = Some r
                                      /\ arvore_de (tabela_de B) = Ok r))
                 /\ (cd = None
                     \/ exists r, rz = Some r
                                  /\ arvore_de (tabela_de B) = Ok r
                                  /\ tf = Some (tabela_de B)
                                  /\ cd = Some (_gerar_rec r [] []))) ->
             coerente B x).
  { intros x (tf & rz & cd & -> & H1 & H2 & H3). now apply K. }
  clear K.
  apply coerente_casos in C.
  destruct C as [->|[->|[(r & HA & ->)|(r & HA & ->)]]];
    (split; [|split; [|split; [|intros saida]]]);
    cbv [gerar_codigos construir_arvore gerar_tabela_frequencia compactar
         no_objeto com_arquivo_wb bind get ret raise lift put
         set_tabela_freq set_raiz set_codigos bytes_dados tabela_freq raiz
         codigos snd fst];
    rewrite ?HA; cbv beta iota zeta;
    repeat match goal with
      | |- context [arvore_de ?t] =>
          destruct (arvore_de t) eqn:?; cbv beta iota zeta
      | |- context [codificar ?c ?b] =>
          destruct (codificar c b) eqn:?; cbv beta iota zeta
      | |- context [_bits_para_bytes ?b] =>
          destruct (_bits_para_bytes b) as [[? ?]|?] eqn:?;
          cbv beta iota zeta
      | |- context [escrever_container ?a ?b ?c ?d] =>
          destruct (escrever_container a b c d) as [[[]|?] ?];
          cbv beta iota zeta
      end;
    apply HK; do 3 eexists; (split; [reflexivity|]);
    (split; [|split]);
    first [ left; reflexivity
          | right;
            repeat first [reflexivity | eassumption | split | eexists] ].
Qed.

Lemma coerente_invariante_witness :
  coerente [x61; x62] (snd (ler_arquivo [x61; x62] novo))
  /\ coerente [x61; x62]
       (snd (gerar_codigos (snd (ler_arquivo [x61; x62] novo)))).
Proof.
  assert (C : coerente [x61; x62] (snd (ler_arquivo [x61; x62] novo)))
    by exact (proj1 (coerente_invariante [x61; x62]) novo).
  split; [exact C|].
  exact (proj1 (proj2 (proj2 (proj2 (coerente_invariante [x61; x62]) _ C)))).
Defined.

(** X11: [compactar] does not depend on what is cached.  On every
    coherent object, whichever of the table, the tree and the codes an
    earlier call has left in it, [compactar] gives the result, writes the
    file and leaves the object that it gives, writes and leaves on a freshly
    loaded one. *)
Theorem compactar_nao_depende_dos_caches (B : list byte) (h : Huffman)
  (saida : arquivo) :
  coerente B h -> compactar (h, saida) = encode B saida.
Proof.
  intros C. apply coerente_casos in C. unfold encode.
  destruct C as [->|[->|[(r & HA & ->)|(r & HA & ->)]]];
    cbv [gerar_codigos construir_arvore gerar_tabela_frequencia compactar
         ler_arquivo novo no_objeto com_arquivo_wb bind get ret raise lift
         put set_tabela_freq set_raiz set_codigos bytes_dados tabela_freq
         raiz codigos snd fst];
    rewrite ?HA; cbv beta iota zeta;
    repeat match goal with
      | |- context [arvore_de ?t] =>
          destruct (arvore_de t) eqn:?; cbv beta iota zeta
      | |- context [codificar ?c ?b] =>
          destruct (codificar c b) eqn:?; cbv beta iota zeta
      | |- context [_bits_para_bytes ?b] =>
          destruct (_bits_para_bytes b) as [[? ?]|?] eqn:?;
          cbv beta iota zeta
      | |- context [escrever_container ?a ?b ?c ?d] =>
          destruct (escrever_container a b c d) as [[[]|?] ?];
          cbv beta iota zeta
      end;
    reflexivity.
Qed.

Lemma compactar_nao_depende_dos_caches_witness :
  coerente [x61; x61; x62]
    (mkHuffman (Some [x61; x61; x62]) (Some [(x61, 2); (x62, 1)]) None None)
  /\ compactar
       (mkHuffman (Some [x61; x61; x62]) (Some [(x61, 2); (x62, 1)]) None
                  None, None)
     = encode [x61; x61; x62] None.
Proof.
  assert (C : coerente [x61; x61; x62]
                (mkHuffman (Some [x61; x61; x62])
                           (Some [(x61, 2); (x62, 1)]) None None)).
  { repeat split; simpl; auto. }
  split; [exact C|].
  apply (compactar_nao_depende_dos_caches _ _ None C).
Defined.

(* ================================================================== *)
(** ** More on the bit packer *)

Lemma formatar_08b_bits (b : byte) : cadeia_de_bits (formatar_08b b).
Proof.
  unfold formatar_08b. apply Forall_forall. intros c I.
  apply in_map_iff in I. destruct I as [i [<- _]].
  destruct (Z.testbit (int_de b) i); [right | left]; reflexivity.
Qed.

Lemma _bytes_para_bits_bits (dados : list byte) :
  cadeia_de_bits (_bytes_para_bits dados)
  /\ length (_bytes_para_bits dados) = (8 * length dados)%nat.
Proof.
  unfold _bytes_para_bits. induction dados as [|b r [IH1 IH2]].
  - split; [constructor | reflexivity].
  - change (flat_map formatar_08b (b :: r))
      with (formatar_08b b ++ flat_map formatar_08b r).
    split.
    + apply Forall_app. split; [apply formatar_08b_bits | exact IH1].
    + rewrite length_app, IH2, length_formatar_08b. simpl length. lia.
Qed.

(** The digits of a byte denote the byte. *)
Lemma int_base2_formatar_08b (b : byte) :
  int_base2 (formatar_08b b) = Ok (int_de b).
Proof. destruct b; reflexivity. Qed.

Lemma formatar_08b_inj (a b : byte) :
  formatar_08b a = formatar_08b b -> a = b.
Proof.
  intros H. apply (f_equal int_base2) in H.
  rewrite !int_base2_formatar_08b in H. injection H as H.
  rewrite <- (byte_de_int_de a), <- (byte_de_int_de b). now rewrite H.
Qed.

Lemma app_mesmo_comprimento {A} (a b c d : list A) :
  length a = length b -> a ++ c = b ++ d -> a = b /\ c = d.
Proof.
  revert b. induction a as [|x a IH]; intros [|y b] L H;
    try discriminate; simpl in *.
  - auto.
  - injection H as -> H. injection L as L.
    destruct (IH b L H) as [-> ->]. auto.
Qed.

Lemma _bytes_para_bits_inj (a b : list byte) :
  _bytes_para_bits a = _bytes_para_bits b -> a = b.
Proof.
  unfold _bytes_para_bits. revert b.
  induction a as [|x a IH]; intros [|y b] H.
  - reflexivity.
  - apply (f_equal (@length ascii)) in H.
    pose proof (proj2 (_bytes_para_bits_bits (y :: b))) as L.
    unfold _bytes_para_bits in L. rewrite <- H in L. simpl in L. lia.
  - apply (f_equal (@length ascii)) in H.
    pose proof (proj2 (_bytes_para_bits_bits (x :: a))) as L.
    unfold _bytes_para_bits in L. rewrite H in L. simpl in L. lia.
  - change (formatar_08b x ++ flat_map formatar_08b a
            = formatar_08b y ++ flat_map formatar_08b b) in H.
    apply app_mesmo_comprimento in H;
      [|now rewrite !length_formatar_08b].
    destruct H as [H1 H2]. apply formatar_08b_inj in H1. apply IH in H2.
    congruence.
Qed.

(** X12: packing the bits of a byte sequence gives the bytes back, with no
    padding: [_bits_para_bytes] undoes [_bytes_para_bits]. *)
Theorem desempacotar_empacotar (dados : list byte) :
  _bits_para_bytes (_bytes_para_bits dados) = Ok (dados, 0).
Proof.
  destruct (_bytes_para_bits_bits dados) as [B L].
  destruct (_bits_para_bytes_correta _ B) as (dados' & HP & HU & _).
  assert (P : padding_de (_bytes_para_bits dados) = 0).
  { unfold padding_de. rewrite L, Nat2Z.inj_mul, Z.mul_comm, Z.mod_mul by lia.
    reflexivity. }
  rewrite P in HU, HP. simpl in HU. rewrite app_nil_r in HU.
  apply _bytes_para_bits_inj in HU. subst dados'. rewrite HP.
  now destruct (length (_bytes_para_bits dados) =? 0)%nat.
Qed.

(* ================================================================== *)
(** ** The size of the container *)

Lemma soma_nil : soma [] = 0.
Proof. reflexivity. Qed.

Lemma contar_ponderada (g : byte -> Z) (d : dict Z) (b : byte) :
  soma (map (fun kv => snd kv * g (fst kv)) (contar d b))
  = soma (map (fun kv => snd kv * g (fst kv)) d) + g b.
Proof.
  unfold contar. induction d as [|[k v] r IH];
    cbn [dict_get dict_set map fst snd].
  - rewrite soma_cons, soma_nil. lia.
  - destruct (Byte.eqb k b) eqn:E; cbn [map fst snd]; rewrite !soma_cons.
    + apply byte_eqb_eq in E. subst k. lia.
    + destruct (dict_get r b) as [n|] eqn:G; [lia|].
      rewrite IH. lia.
Qed.

(** A sum over the input is the sum over the table, each symbol counted
    with its frequency. *)
Lemma soma_por_tabela (g : byte -> Z) (B : list byte) :
  soma (map g B)
  = soma (map (fun kv => snd kv * g (fst kv)) (tabela_de B)).
Proof.
  unfold tabela_de.
  assert (A : forall bs d,
             soma (map (fun kv => snd kv * g (fst kv)) (fold_left contar bs d))
             = soma (map (fun kv => snd kv * g (fst kv)) d)
               + soma (map g bs)).
  { induction bs as [|b r IH]; intros d; cbn [fold_left map].
    - rewrite soma_nil. lia.
    - rewrite IH, contar_ponderada, soma_cons. lia. }
  rewrite A. cbn [map]. rewrite soma_nil. lia.
Qed.

Lemma codificar_length (cod : dict (list ascii)) (B : list byte) bits :
  codificar cod B = Ok bits ->
  Z.of_nat (length bits)
  = soma (map (fun b => match dict_get cod b with
                        | Some c => Z.of_nat (length c)
                        | None => 0
                        end) B).
Proof.
  revert bits. induction B as [|b r IH]; intros bits H; simpl in H.
  - injection H as <-. reflexivity.
  - destruct (dict_get cod b) as [c|] eqn:G; [|discriminate].
    destruct (codificar cod r) as [bits'|]; [|discriminate].
    injection H as <-. simpl map. rewrite soma_cons, G, length_app.
    rewrite <- (IH bits' eq_refl). lia.
Qed.

(** X13: the size of the container.  A container written by [compactar]
    for N distinct symbols is 9 + 5 N bytes of header followed by the
    coded data, whose number of bytes is the number of bits of the coded
    input rounded up to a multiple of 8 and divided by 8; that number of
    bits is the sum over the table of the frequency of each symbol times
    the length of its code. *)
Theorem compactar_tamanho (B : list byte) (saida : arquivo) (h : Huffman)
  (c : list byte) :
  encode B saida = (Ok tt, (h, Some c)) ->
  exists cod,
    codigos h = Some cod
    /\ Z.of_nat (length c)
       = 9 + 5 * Z.of_nat (length (tabela_de B))
         + (total_de_bits (tabela_de B) cod + 7) / 8.
Proof.
  intros HE. pose proof (encode_ok_nao_vazio _ _ _ HE) as HB.
  destruct (encode_passos B saida HB)
    as (fr & e & d & bits & dados & HA & HK & Hb & Hn & HP & HU & HD & HE').
  rewrite HE' in HE. clear HE'.
  destruct (escrever_container (tabela_de B) (padding_de bits) dados [])
    as [res f] eqn:W.
  simpl in HE. injection HE as -> <- <-.
  apply escrever_container_inv in W. destruct W as (-> & C & P & L).
  exists (_gerar_rec (mkNo fr None e d) [] []). split; [reflexivity|].
  assert (LE : forall t : dict Z,
             length (flat_map entrada_serializada t) = (5 * length t)%nat).
  { induction t as [|kv r IH]; [reflexivity|].
    change (flat_map entrada_serializada (kv :: r))
      with (entrada_serializada kv ++ flat_map entrada_serializada r).
    rewrite length_app, IH. simpl length. lia. }
  unfold layout. rewrite !length_app, LE. simpl length.
  unfold total_de_bits.
  rewrite <- (soma_por_tabela
                (fun b => match dict_get (_gerar_rec (mkNo fr None e d) [] [])
                                         b with
                          | Some c => Z.of_nat (length c)
                          | None => 0
                          end) B).
  rewrite <- (codificar_length _ _ _ HK).
  pose proof (proj2 (_bytes_para_bits_bits dados)) as LD.
  rewrite HU, length_app, repeat_length in LD.
  destruct (padding_de_correto bits) as [P7 _].
  assert (Q : Z.of_nat (length dados) = (Z.of_nat (length bits) + 7) / 8).
  { apply Z.div_unique with (r := 7 - padding_de bits); lia. }
  lia.
Qed.

Lemma compactar_tamanho_witness :
  encode [x61; x61; x61; x62] None
  = (Ok tt,
     (mkHuffman (Some [x61; x61; x61; x62]) (Some [(x61, 3); (x62, 1)])
        (Some (mkNo 4 None (Some (mkNo 1 (Some x62) None None))
                    (Some (mkNo 3 (Some x61) None None))))
        (Some [(x62, ["0"]); (x61, ["1"])]),
      Some [x48; x55; x46; x31; x00; x00; x00; x02; x61; x00; x00; x00; x03;
            x62; x00; x00; x00; x01; x04; xe0]))
  /\ exists cod,
    Some [(x62, ["0"]); (x61, ["1"])] = Some cod
    /\ Z.of_nat (length [x48; x55; x46; x31; x00; x00; x00; x02; x61; x00;
                         x00; x00; x03; x62; x00; x00; x00; x01; x04; xe0])
       = 9 + 5 * Z.of_nat (length (tabela_de [x61; x61; x61; x62]))
         + (total_de_bits (tabela_de [x61; x61; x61; x62]) cod + 7) / 8.
Proof.
  assert (H : encode [x61; x61; x61; x62] None
              = (Ok tt,
                 (mkHuffman (Some [x61; x61; x61; x62])
                    (Some [(x61, 3); (x62, 1)])
                    (Some (mkNo 4 None (Some (mkNo 1 (Some x62) None None))
                                (Some (mkNo 3 (Some x61) None None))))
                    (Some [(x62, ["0"]); (x61, ["1"])]),
                  Some [x48; x55; x46; x31; x00; x00; x00; x02; x61; x00;
                        x00; x00; x03; x62; x00; x00; x00; x01; x04; xe0])))
    by reflexivity.
  split; [exact H|].
  exact (compactar_tamanho _ _ _ _ H).
Defined.

(* ================================================================== *)
(** ** The errors of decoding *)

Lemma bytes_eqb_eq (a b : list byte) : bytes_eqb a b = true <-> a = b.
Proof.
  revert b. induction a as [|x a IH]; intros [|y b]; simpl;
    try (split; [discriminate | discriminate]); [tauto|].
  rewrite andb_true_iff, byte_eqb_eq, IH. split.
  - intros [-> ->]. reflexivity.
  - intros [= -> ->]. auto.
Qed.

Lemma arvore_de_erro (t : dict Z) (e : erro) :
  arvore_de t = Erro e -> t = [] /\ e = ArquivoVazio.
Proof.
  intros H. destruct t as [|kv t'].
  - simpl in H. injection H as <-. auto.
  - destruct (arvore_de_correta (kv :: t')) as (f & l & r & HA & _);
      [discriminate|].
    rewrite HA in H. discriminate.
Qed.

Lemma ler_entradas_erro (f : list byte) :
  forall n tab e f',
    ler_entradas n tab f = (Erro e, f') -> e = CorrompidoEntradaTabela.
Proof.
  induction f as [f IH] using (well_founded_induction
                                 (Wf_nat.well_founded_ltof _ (@length byte))).
  intros n tab e f' H.
  destruct f as [|s [|b3 [|b2 [|b1 [|b0 r]]]]]; simpl in H;
    destruct (n <=? 0); try congruence.
  eapply (IH r); [|exact H]. unfold Wf_nat.ltof. simpl. lia.
Qed.

Lemma ler_cabecalho_erro (huff : list byte) (e : erro) (f : list byte) :
  ler_cabecalho huff = (Erro e, f) ->
  (e = FormatoInvalido /\ firstn 4 huff <> HUF1)
  \/ (firstn 4 huff = HUF1
      /\ (e = CorrompidoTamanhoTabela \/ e = CorrompidoEntradaTabela
          \/ e = CorrompidoPadding)).
Proof.
  unfold ler_cabecalho. cbv [bind read raise ret]. intros H.
  destruct (bytes_eqb (firstn 4 huff) HUF1) eqn:M;
    cbv [negb] in H; cbv beta iota in H.
  - apply bytes_eqb_eq in M. right. split; [exact M|].
    destruct (length (firstn 4 (skipn 4 huff)) <? 4)%nat;
      cbv beta iota zeta in H; [injection H as <- _; auto|].
    destruct (ler_entradas _ _ _) as [[t|e1] f1] eqn:E;
      cbv beta iota zeta in H.
    + destruct (firstn 1 f1); cbv beta iota in H;
        [injection H as <- _; auto | discriminate].
    + injection H as <- _. apply ler_entradas_erro in E. auto.
  - injection H as <- _. left. split; [reflexivity|].
    intros E. rewrite E, bytes_eqb_refl in M. discriminate.
Qed.

Lemma ler_cabecalho_ok (huff : list byte) t p f :
  ler_cabecalho huff = (Ok (t, p), f) -> firstn 4 huff = HUF1.
Proof.
  unfold ler_cabecalho. cbv [bind read raise ret]. intros H.
  destruct (bytes_eqb (firstn 4 huff) HUF1) eqn:M;
    cbv [negb] in H; cbv beta iota in H.
  - now apply bytes_eqb_eq.
  - discriminate.
Qed.

(** X14: the errors of decoding.  The file is rejected as not being a
    container exactly when its first four bytes are not HUF1, a file
    shorter than four bytes included; and whatever the file, decoding
    raises nothing but the seven errors the program raises itself: no
    index out of range, no missing attribute of an absent node. *)
Theorem descompactar_erros (huff : list byte) :
  (reconstruir huff = Erro FormatoInvalido <-> firstn 4 huff <> HUF1)
  /\ forall e,
      reconstruir huff = Erro e ->
      In e [FormatoInvalido; CorrompidoTamanhoTabela;
            CorrompidoEntradaTabela; CorrompidoPadding; CorrompidoSemDados;
            ArquivoVazio; NavegacaoInvalida].
Proof.
  assert (K : forall e, reconstruir huff = Erro e ->
              (e = FormatoInvalido /\ firstn 4 huff <> HUF1)
              \/ (firstn 4 huff = HUF1
                  /\ In e [CorrompidoTamanhoTabela; CorrompidoEntradaTabela;
                           CorrompidoPadding; CorrompidoSemDados;
                           ArquivoVazio; NavegacaoInvalida])).
  { intros e H.
    destruct (ler_cabecalho huff) as [[[t p]|e1] f] eqn:E.
    - right. split; [eapply ler_cabecalho_ok; exact E|].
      rewrite (reconstruir_passos huff t p f E) in H.
      destruct ((length f =? 0)%nat && (0 <? soma (dict_values t))).
      + injection H as <-. simpl. auto.
      + destruct (arvore_de t) as [r|e2] eqn:HA.
        * apply percorrer_erro in H. subst. simpl. auto 10.
        * injection H as <-. apply arvore_de_erro in HA.
          destruct HA as [_ ->]. simpl. auto 10.
    - assert (R : reconstruir huff = Erro e1).
      { unfold reconstruir, ler_container, bind. now rewrite E. }
      rewrite R in H. injection H as <-.
      apply ler_cabecalho_erro in E.
      destruct E as [[-> N]|[M [->|[->| ->]]]]; simpl; auto 10. }
  split; [split|].
  - intros H. apply K in H. destruct H as [[_ N]|[_ I]]; [exact N|].
    simpl in I. intuition discriminate.
  - intros N. unfold reconstruir, ler_container, ler_cabecalho.
    cbv [bind read raise ret].
    destruct (bytes_eqb (firstn 4 huff) HUF1) eqn:M; [|reflexivity].
    apply bytes_eqb_eq in M. contradiction.
  - intros e H. apply K in H. destruct H as [[-> _]|[_ I]]; simpl in *; tauto.
Qed.

Lemma descompactar_erros_witness :
  firstn 4 [x48; x55; x46] <> HUF1
  /\ reconstruir [x48; x55; x46] = Erro FormatoInvalido.
Proof.
  assert (N : firstn 4 [x48; x55; x46] <> HUF1) by discriminate.
  split; [exact N|].
  exact (proj2 (proj1 (descompactar_erros [x48; x55; x46])) N).
Defined.

Lemma from_bytes_nao_negativo (bs : list byte) : 0 <= from_bytes bs.
Proof.
  unfold from_bytes.
  assert (A : forall acc, 0 <= acc ->
              0 <= fold_left (fun a b => a * 256 + int_de b) bs acc).
  { induction bs as [|b r IH]; intros acc H; simpl; [exact H|].
    apply IH. pose proof (int_de_intervalo b). lia. }
  apply A. lia.
Qed.

Lemma ler_entradas_zero (tab : dict Z) (f : list byte) :
  ler_entradas 0 tab f = (Ok tab, f).
Proof. destruct f; reflexivity. Qed.

(** Reading [k] entries takes [5 k] bytes, and fails when they are not all
    there. *)
Lemma ler_entradas_comprimento (k : nat) :
  forall tab f,
    (5 * k <= length f)%nat /\
      (exists t, ler_entradas (Z.of_nat k) tab f = (Ok t, skipn (5 * k) f))
    \/ (length f < 5 * k)%nat /\
         fst (ler_entradas (Z.of_nat k) tab f) = Erro CorrompidoEntradaTabela.
Proof.
  induction k as [|k IH]; intros tab f.
  - left. split; [simpl; lia|]. exists tab. apply ler_entradas_zero.
  - assert (E : forall r,
               ler_entradas (Z.of_nat (S k)) tab r
               = match r with
                 | s :: b3 :: b2 :: b1 :: b0 :: f' =>
                     ler_entradas (Z.of_nat k)
                                  (dict_set s (from_bytes [b3; b2; b1; b0]) tab)
                                  f'
                 | _ => (Erro CorrompidoEntradaTabela, [])
                 end).
    { intros r.
      assert (Z : (Z.of_nat (S k) <=? 0) = false) by (apply Z.leb_gt; lia).
      replace (Z.of_nat k) with (Z.of_nat (S k) - 1) by lia.
      destruct r as [|s [|b3 [|b2 [|b1 [|b0 r]]]]]; cbn [ler_entradas];
        rewrite Z; reflexivity. }
    rewrite E.
    destruct f as [|s [|b3 [|b2 [|b1 [|b0 f']]]]];
      try (right; split; [simpl; lia | reflexivity]).
    destruct (IH (dict_set s (from_bytes [b3; b2; b1; b0]) tab) f')
      as [[L [t H]]|[L H]].
    + left. split; [simpl length; lia|]. exists t. rewrite H.
      replace (5 * S k)%nat with (5 + 5 * k)%nat by lia. reflexivity.
    + right. split; [simpl length; lia | exact H].
Qed.

(** X15: a truncated header.  After the magic, a file with fewer than
    four bytes left is rejected for the size of the table; with N the
    number those four bytes declare, fewer than 5 N bytes after them is
    rejected for a table entry, exactly 5 N for the padding, and with more
    the header is read and the data start after the padding byte. *)
Theorem ler_cabecalho_truncado (resto : list byte) :
  ((length resto < 4)%nat ->
   fst (ler_cabecalho (HUF1 ++ resto)) = Erro CorrompidoTamanhoTabela)
  /\ forall n_bytes corpo,
      resto = n_bytes ++ corpo -> length n_bytes = 4%nat ->
      let n := Z.to_nat (from_bytes n_bytes) in
      ((length corpo < 5 * n)%nat ->
       fst (ler_cabecalho (HUF1 ++ resto)) = Erro CorrompidoEntradaTabela)
      /\ (length corpo = (5 * n)%nat ->
          fst (ler_cabecalho (HUF1 ++ resto)) = Erro CorrompidoPadding)
      /\ ((5 * n < length corpo)%nat ->
          exists t,
            ler_cabecalho (HUF1 ++ resto)
            = (Ok (t, int_de (nth (5 * n) corpo x00)),
               skipn (5 * n + 1) corpo)).
Proof.
  assert (M : forall r, ler_cabecalho (HUF1 ++ r)
              = (n_bytes <- read 4 ;;
                 if (length n_bytes <? 4)%nat
                 then raise CorrompidoTamanhoTabela
                 else
                   tabela_freq <- ler_entradas (from_bytes n_bytes) [] ;;
                   padding_byte <- read 1 ;;
                   match padding_byte with
                   | [] => raise CorrompidoPadding
                   | p :: _ => ret (tabela_freq, int_de p)
                   end) r).
  { intros r. unfold ler_cabecalho.
    rewrite (bind_read 4 HUF1) by reflexivity.
    now rewrite bytes_eqb_refl. }
  split.
  - intros L. rewrite M. cbv [bind read raise].
    assert (E : (length (firstn 4 resto) <? 4)%nat = true).
    { apply Nat.ltb_lt. rewrite length_firstn. lia. }
    now rewrite E.
  - intros n_bytes corpo -> L4 n.
    pose proof (from_bytes_nao_negativo n_bytes) as NN.
    assert (X : ler_cabecalho (HUF1 ++ n_bytes ++ corpo)
                = match ler_entradas (Z.of_nat n) [] corpo with
                  | (Ok t, s') =>
                      match s' with
                      | [] => (Erro CorrompidoPadding, [])
                      | p :: s'' => (Ok (t, int_de p), s'')
                      end
                  | (Erro e, s') => (Erro e, s')
                  end).
    { rewrite M. rewrite (bind_read 4 n_bytes) by exact L4.
      assert (E : (length n_bytes <? 4)%nat = false)
        by (apply Nat.ltb_ge; lia).
      rewrite E. unfold bind at 1.
      replace (from_bytes n_bytes) with (Z.of_nat n) by (unfold n; lia).
      destruct (ler_entradas (Z.of_nat n) [] corpo) as [[t|e] s'];
        [|reflexivity].
      cbv [bind read raise ret]. destruct s'; reflexivity. }
    rewrite X. clear X M.
    destruct (ler_entradas_comprimento n [] corpo) as [[L [t H]]|[L H]].
    + rewrite H. split; [intros; lia|]. split.
      * intros L'. rewrite skipn_all2 by lia. reflexivity.
      * intros L'. exists t.
        destruct (skipn (5 * n) corpo) as [|p r] eqn:S.
        { apply (f_equal (@length byte)) in S. rewrite length_skipn in S.
          simpl in S. lia. }
        replace (5 * n + 1)%nat with (1 + 5 * n)%nat by lia.
        rewrite <- skipn_skipn, S. simpl skipn.
        rewrite <- (firstn_skipn (5 * n) corpo) at 1.
        rewrite app_nth2 by (rewrite length_firstn; lia).
        rewrite length_firstn, S.
        replace (5 * n - Nat.min (5 * n) (length corpo))%nat with 0%nat by lia.
        reflexivity.
    + destruct (ler_entradas (Z.of_nat n) [] corpo) as [r f].
      simpl in H. subst r.
      split; [reflexivity|]. split; intros; lia.
Qed.

Lemma ler_cabecalho_truncado_witness :
  (length [x61; x00; x00] < 5 * Z.to_nat (from_bytes [x00; x00; x00; x01]))%nat
  /\ fst (ler_cabecalho (HUF1 ++ [x00; x00; x00; x01; x61; x00; x00]))
     = Erro CorrompidoEntradaTabela.
Proof.
  assert (L : (length [x61; x00; x00]
               < 5 * Z.to_nat (from_bytes [x00; x00; x00; x01]))%nat)
    by (vm_compute; lia).
  split; [exact L|].
  exact (proj1 (proj2 (ler_cabecalho_truncado
                         [x00; x00; x00; x01; x61; x00; x00])
                      [x00; x00; x00; x01] [x61; x00; x00] eq_refl eq_refl)
               L).
Defined.

(* ================================================================== *)
(** ** Data that are too long or too short *)

(** Walking the concatenated codes of a non-empty [bs] stops on its last
    byte, whatever bits follow. *)
Lemma percorrer_codificar_resto raiz cod total :
  simbolo raiz = None ->
  (forall b c, dict_get cod b = Some c -> caminho_ate raiz c b) ->
  forall bs bits resto emitidos,
    bs <> [] ->
    codificar cod bs = Ok bits ->
    Z.of_nat (length emitidos + length bs) = total ->
    percorrer raiz total (bits ++ resto) raiz emitidos = Ok (emitidos ++ bs).
Proof.
  intros Hr Hc. induction bs as [|b r IH];
    intros bits resto emitidos N H L; [contradiction|]. simpl in H.
  destruct (dict_get cod b) as [c|] eqn:G; [|discriminate].
  destruct (codificar cod r) as [bits'|] eqn:C; [|discriminate].
  injection H as <-. rewrite <- app_assoc.
  rewrite (percorrer_caminho _ _ _ (Hc _ _ G) Hr).
  destruct (Z.eqb_spec (Z.of_nat (length (emitidos ++ [b]))) total) as [T|T].
  - rewrite length_app in T. simpl in T, L.
    destruct r; [reflexivity | simpl in L; lia].
  - destruct r as [|b' r'].
    + rewrite length_app in T. simpl in T, L. lia.
    + rewrite (IH bits' resto (emitidos ++ [b])); try congruence.
      * now rewrite <- app_assoc.
      * rewrite length_app. simpl in *. lia.
Qed.

Lemma aparar_app (bits r : list ascii) (p : Z) :
  (Z.to_nat p <= length r)%nat ->
  exists r', aparar (bits ++ r) p = bits ++ r'.
Proof.
  intros L. unfold aparar. destruct (0 <? p); [|eauto].
  unfold sem_final. rewrite length_app.
  replace (length bits + length r - Z.to_nat p)%nat
    with (length bits + (length r - Z.to_nat p))%nat by lia.
  rewrite firstn_app_2. eauto.
Qed.

(** X16: bytes after the data are ignored.  Whatever is appended to a
    container written by [compactar], decoding returns the bytes that
    were encoded: the walk stops once it has emitted as many bytes as the
    frequencies add up to. *)
Theorem descompactar_ignora_sobra (B : list byte) (saida : arquivo)
  (h : Huffman) (c sobra : list byte) :
  encode B saida = (Ok tt, (h, Some c)) ->
  reconstruir (c ++ sobra) = Ok B.
Proof.
  intros HE. pose proof (encode_ok_nao_vazio _ _ _ HE) as HB.
  destruct (encode_passos B saida HB)
    as (fr & e & d & bits & dados & HA & HK & Hb & Hn & HP & HU & HD & HE').
  rewrite HE' in HE. clear HE'.
  destruct (escrever_container (tabela_de B) (padding_de bits) dados [])
    as [res f] eqn:W.
  simpl in HE. injection HE as -> <- <-.
  apply escrever_container_inv in W. destruct W as (-> & C & P & L).
  assert (E : layout (tabela_de B) (padding_de bits) dados ++ sobra
              = layout (tabela_de B) (padding_de bits) (dados ++ sobra)).
  { unfold layout. now rewrite <- !app_assoc. }
  rewrite E.
  assert (HL : ler_cabecalho
                 (layout (tabela_de B) (padding_de bits) (dados ++ sobra))
               = (Ok (tabela_de B, padding_de bits), dados ++ sobra)).
  { apply ler_cabecalho_layout; auto using tabela_de_NoDup. }
  rewrite (reconstruir_passos _ _ _ _ HL), HA.
  assert (LD : (length (dados ++ sobra) =? 0)%nat = false).
  { apply Nat.eqb_neq. rewrite length_app.
    destruct dados; [contradiction | simpl; lia]. }
  rewrite LD. simpl andb. cbv iota.
  unfold _bytes_para_bits. rewrite flat_map_app.
  fold (_bytes_para_bits dados). fold (_bytes_para_bits sobra).
  rewrite HU, <- app_assoc.
  destruct (padding_de_correto bits) as [P7 _].
  destruct (aparar_app bits
              (repeat "0" (Z.to_nat (padding_de bits))
                 ++ _bytes_para_bits sobra) (padding_de bits))
    as [r' ->].
  { rewrite length_app, repeat_length. lia. }
  rewrite tabela_de_soma.
  exact (percorrer_codificar_resto (mkNo fr None e d) _
           (Z.of_nat (length B)) eq_refl (codigos_sao_caminhos fr e d)
           B bits r' [] HB HK eq_refl).
Qed.

Lemma descompactar_ignora_sobra_witness :
  encode [x61; x61; x61; x62] None
  = (Ok tt,
     (mkHuffman (Some [x61; x61; x61; x62]) (Some [(x61, 3); (x62, 1)])
        (Some (mkNo 4 None (Some (mkNo 1 (Some x62) None None))
                    (Some (mkNo 3 (Some x61) None None))))
        (Some [(x62, ["0"]); (x61, ["1"])]),
      Some [x48; x55; x46; x31; x00; x00; x00; x02; x61; x00; x00; x00; x03;
            x62; x00; x00; x00; x01; x04; xe0]))
  /\ reconstruir
       ([x48; x55; x46; x31; x00; x00; x00; x02; x61; x00; x00; x00; x03;
         x62; x00; x00; x00; x01; x04; xe0] ++ [xff; x00; x5a])
     = Ok [x61; x61; x61; x62].
Proof.
  assert (H : encode [x61; x61; x61; x62] None
              = (Ok tt,
                 (mkHuffman (Some [x61; x61; x61; x62])
                    (Some [(x61, 3); (x62, 1)])
                    (Some (mkNo 4 None (Some (mkNo 1 (Some x62) None None))
                                (Some (mkNo 3 (Some x61) None None))))
                    (Some [(x62, ["0"]); (x61, ["1"])]),
                  Some [x48; x55; x46; x31; x00; x00; x00; x02; x61; x00;
                        x00; x00; x03; x62; x00; x00; x00; x01; x04; xe0])))
    by reflexivity.
  split; [exact H|].
  exact (descompactar_ignora_sobra _ _ _ _ [xff; x00; x5a] H).
Defined.

(** A walk that stops inside a code emits nothing for it. *)
Lemma percorrer_caminho_parcial no p s :
  caminho_ate no p s -> simbolo no = None ->
  forall k raiz total emitidos,
    (k < length p)%nat ->
    percorrer raiz total (firstn k p) no emitidos = Ok emitidos.
Proof.
  induction 1 as [|f e d c s H IH|f e d c s H IH];
    intros Hi k raiz total emitidos L.
  - discriminate.
  - destruct k as [|k]; [reflexivity|]. simpl.
    destruct (simbolo e) as [s'|] eqn:E.
    + inversion H; subst; simpl in E; try discriminate. simpl in L. lia.
    + apply IH; [reflexivity | simpl in L; lia].
  - destruct k as [|k]; [reflexivity|]. simpl.
    destruct (simbolo d) as [s'|] eqn:E.
    + inversion H; subst; simpl in E; try discriminate. simpl in L. lia.
    + apply IH; [reflexivity | simpl in L; lia].
Qed.

(** Walking the first [k] bits of the concatenated codes of [bs] emits an
    initial segment of [bs], and not all of it when bits are missing. *)
Lemma percorrer_prefixo raiz cod total :
  simbolo raiz = None ->
  (forall b c, dict_get cod b = Some c -> caminho_ate raiz c b) ->
  forall bs bits k emitidos,
    codificar cod bs = Ok bits ->
    Z.of_nat (length emitidos + length bs) = total ->
    exists j,
      ((k < length bits)%nat -> (j < length bs)%nat)
      /\ percorrer raiz total (firstn k bits) raiz emitidos
         = Ok (emitidos ++ firstn j bs).
Proof.
  intros Hr Hc. induction bs as [|b r IH]; intros bits k emitidos H L.
  - injection H as <-. exists 0%nat. split; [simpl; lia|].
    rewrite firstn_nil. simpl. now rewrite app_nil_r.
  - simpl in H.
    destruct (dict_get cod b) as [c|] eqn:G; [|discriminate].
    destruct (codificar cod r) as [bits'|] eqn:C; [|discriminate].
    injection H as <-.
    destruct (le_lt_dec (length c) k) as [K|K].
    + rewrite firstn_app.
      rewrite (firstn_all2 c) by exact K.
      rewrite (percorrer_caminho _ _ _ (Hc _ _ G) Hr).
      destruct (Z.eqb_spec (Z.of_nat (length (emitidos ++ [b]))) total)
        as [T|T].
      * exists 1%nat. rewrite length_app in T. simpl in T, L.
        destruct r as [|b' r']; [|simpl in L; lia].
        injection C as <-. rewrite app_nil_r. split; [lia | reflexivity].
      * destruct (IH bits' (k - length c)%nat (emitidos ++ [b]) eq_refl)
          as (j & J & P).
        { rewrite length_app. simpl in *. lia. }
        exists (S j). split.
        -- rewrite length_app. simpl. intros. apply -> Nat.succ_lt_mono.
           apply J. lia.
        -- rewrite P, <- app_assoc. reflexivity.
    + rewrite firstn_app.
      replace (k - length c)%nat with 0%nat by lia.
      rewrite firstn_O, app_nil_r.
      rewrite (percorrer_caminho_parcial _ _ _ (Hc _ _ G) Hr) by exact K.
      exists 0%nat. split; [simpl; lia|]. simpl. now rewrite app_nil_r.
Qed.

Lemma _bytes_para_bits_firstn (dados : list byte) (m : nat) :
  _bytes_para_bits (firstn m dados) = firstn (8 * m) (_bytes_para_bits dados).
Proof.
  revert m. induction dados as [|b r IH]; intros m.
  - now rewrite !firstn_nil.
  - destruct m as [|m]; [reflexivity|].
    change (_bytes_para_bits (firstn (S m) (b :: r)))
      with (formatar_08b b ++ _bytes_para_bits (firstn m r)).
    change (_bytes_para_bits (b :: r))
      with (formatar_08b b ++ _bytes_para_bits r).
    rewrite IH, firstn_app, length_formatar_08b.
    rewrite (firstn_all2 (formatar_08b b))
      by (rewrite length_formatar_08b; lia).
    f_equal. f_equal. lia.
Qed.

Lemma length_cabecalho (t : dict Z) (p : Z) (dados : list byte) :
  exists cab, layout t p dados = cab ++ dados
              /\ length cab = (9 + 5 * length t)%nat
              /\ forall dados', layout t p dados' = cab ++ dados'.
Proof.
  exists (HUF1 ++ be32 (Z.of_nat (length t))
            ++ flat_map entrada_serializada t ++ [byte_de p]).
  assert (LE : forall t : dict Z,
             length (flat_map entrada_serializada t) = (5 * length t)%nat).
  { clear. induction t as [|kv r IH]; [reflexivity|].
    change (flat_map entrada_serializada (kv :: r))
      with (entrada_serializada kv ++ flat_map entrada_serializada r).
    rewrite length_app, IH. simpl length. lia. }
  unfold layout. repeat split.
  - now rewrite <- !app_assoc.
  - rewrite !length_app, LE. simpl length. lia.
  - intros. now rewrite <- !app_assoc.
Qed.

(** X17: a cut payload is not detected.  When a container written by
    [compactar] is cut anywhere after the first byte of its payload,
    decoding raises no error: it returns an initial segment of the bytes
    that were encoded, shorter than them. *)
Theorem descompactar_truncado (B : list byte) (saida : arquivo)
  (h : Huffman) (c : list byte) (k : nat) :
  encode B saida = (Ok tt, (h, Some c)) ->
  (9 + 5 * length (tabela_de B) < k < length c)%nat ->
  exists j, (j < length B)%nat /\ reconstruir (firstn k c) = Ok (firstn j B).
Proof.
  intros HE HK'. pose proof (encode_ok_nao_vazio _ _ _ HE) as HB.
  destruct (encode_passos B saida HB)
    as (fr & e & d & bits & dados & HA & HK & Hb & Hn & HP & HU & HD & HE').
  rewrite HE' in HE. clear HE'.
  destruct (escrever_container (tabela_de B) (padding_de bits) dados [])
    as [res f] eqn:W.
  simpl in HE. injection HE as -> <- <-.
  apply escrever_container_inv in W. destruct W as (-> & C & P & L).
  destruct (length_cabecalho (tabela_de B) (padding_de bits) dados)
    as (cab & EC & LC & EC').
  rewrite EC in HK' |- *. rewrite length_app, LC in HK'.
  rewrite firstn_app, LC.
  rewrite (firstn_all2 cab) by lia.
  remember (k - (9 + 5 * length (tabela_de B)))%nat as m eqn:Em.
  assert (M : (1 <= m < length dados)%nat) by lia.
  rewrite <- EC'.
  assert (HL : ler_cabecalho
                 (layout (tabela_de B) (padding_de bits) (firstn m dados))
               = (Ok (tabela_de B, padding_de bits), firstn m dados)).
  { apply ler_cabecalho_layout; auto using tabela_de_NoDup. }
  rewrite (reconstruir_passos _ _ _ _ HL), HA.
  assert (LD : (length (firstn m dados) =? 0)%nat = false).
  { apply Nat.eqb_neq. rewrite length_firstn. lia. }
  rewrite LD. simpl andb. cbv iota.
  rewrite _bytes_para_bits_firstn, HU.
  destruct (padding_de_correto bits) as [P7 _].
  pose proof (proj2 (_bytes_para_bits_bits dados)) as LB.
  rewrite HU, length_app, repeat_length in LB.
  assert (EA : aparar (firstn (8 * m)
                         (bits ++ repeat "0" (Z.to_nat (padding_de bits))))
                      (padding_de bits)
               = firstn (8 * m - Z.to_nat (padding_de bits)) bits).
  { rewrite firstn_app.
    replace (8 * m - length bits)%nat with 0%nat by lia.
    rewrite firstn_O, app_nil_r. unfold aparar.
    destruct (Z.ltb_spec 0 (padding_de bits)) as [Q|Q].
    - unfold sem_final. rewrite length_firstn, firstn_firstn.
      f_equal. lia.
    - f_equal. lia. }
  rewrite EA, tabela_de_soma.
  destruct (percorrer_prefixo (mkNo fr None e d) _ (Z.of_nat (length B))
              eq_refl (codigos_sao_caminhos fr e d) B bits
              (8 * m - Z.to_nat (padding_de bits))%nat [] HK eq_refl)
    as (j & J & R).
  exists j. split; [apply J; lia | exact R].
Qed.

Lemma descompactar_truncado_witness :
  encode [x61; x61; x61; x62; x61; x61; x61; x61; x61; x62] None
  = (Ok tt,
     (mkHuffman (Some [x61; x61; x61; x62; x61; x61; x61; x61; x61; x62])
        (Some [(x61, 8); (x62, 2)])
        (Some (mkNo 10 None (Some (mkNo 2 (Some x62) None None))
                    (Some (mkNo 8 (Some x61) None None))))
        (Some [(x62, ["0"]); (x61, ["1"])]),
      Some [x48; x55; x46; x31; x00; x00; x00; x02; x61; x00; x00; x00; x08;
            x62; x00; x00; x00; x02; x06; xef; x80]))
  /\ (9 + 5 * length (tabela_de [x61; x61; x61; x62; x61; x61; x61; x61;
                                 x61; x62])
      < 20
      < length [x48; x55; x46; x31; x00; x00; x00; x02; x61; x00; x00; x00;
                x08; x62; x00; x00; x00; x02; x06; xef; x80])%nat
  /\ exists j,
       (j < length [x61; x61; x61; x62; x61; x61; x61; x61; x61; x62])%nat
       /\ reconstruir
            (firstn 20
               [x48; x55; x46; x31; x00; x00; x00; x02; x61; x00; x00; x00;
                x08; x62; x00; x00; x00; x02; x06; xef; x80])
          = Ok (firstn j [x61; x61; x61; x62; x61; x61; x61; x61; x61; x62]).
Proof.
  assert (H : encode [x61; x61; x61; x62; x61; x61; x61; x61; x61; x62] None
              = (Ok tt,
                 (mkHuffman
                    (Some [x61; x61; x61; x62; x61; x61; x61; x61; x61; x62])
                    (Some [(x61, 8); (x62, 2)])
                    (Some (mkNo 10 None
                                (Some (mkNo 2 (Some x62) None None))
                                (Some (mkNo 8 (Some x61) None None))))
                    (Some [(x62, ["0"]); (x61, ["1"])]),
                  Some [x48; x55; x46; x31; x00; x00; x00; x02; x61; x00;
                        x00; x00; x08; x62; x00; x00; x00; x02; x06; xef;
                        x80])))
    by reflexivity.
  assert (K : (9 + 5 * length (tabela_de [x61; x61; x61; x62; x61; x61; x61;
                                          x61; x61; x62])
               < 20
               < length [x48; x55; x46; x31; x00; x00; x00; x02; x61; x00;
                         x00; x00; x08; x62; x00; x00; x00; x02; x06; xef;
                         x80])%nat)
    by (simpl; lia).
  split; [exact H|]. split; [exact K|].
  exact (descompactar_truncado _ _ _ _ 20%nat H K).
Defined.

(* ================================================================== *)
(** ** Codes that can be told apart, one symbol, no file *)

Lemma codificar_caminhos_inj raiz cod :
  simbolo raiz = None ->
  (forall b c, dict_get cod b = Some c -> caminho_ate raiz c b) ->
  forall B1 B2 bits,
    codificar cod B1 = Ok bits -> codificar cod B2 = Ok bits -> B1 = B2.
Proof.
  intros Hr Hc. induction B1 as [|b1 r1 IH]; intros B2 bits H1 H2.
  - injection H1 as <-. destruct B2 as [|b2 r2]; [reflexivity|].
    simpl in H2.
    destruct (dict_get cod b2) as [c2|] eqn:G2; [|discriminate].
    destruct (codificar cod r2); [|discriminate].
    injection H2 as H2.
    pose proof (caminho_ate_interno _ _ _ (Hc _ _ G2) Hr).
    destruct c2; [contradiction | discriminate].
  - simpl in H1.
    destruct (dict_get cod b1) as [c1|] eqn:G1; [|discriminate].
    destruct (codificar cod r1) as [s1|] eqn:C1; [|discriminate].
    injection H1 as <-.
    destruct B2 as [|b2 r2].
    + injection H2 as H2.
      pose proof (caminho_ate_interno _ _ _ (Hc _ _ G1) Hr).
      destruct c1; [contradiction | discriminate].
    + simpl in H2.
      destruct (dict_get cod b2) as [c2|] eqn:G2; [|discriminate].
      destruct (codificar cod r2) as [s2|] eqn:C2; [|discriminate].
      injection H2 as H2.
      pose proof (Hc _ _ G1) as P1. pose proof (Hc _ _ G2) as P2.
      apply app_eq_app in H2. destruct H2 as [l [[E1 E2]|[E1 E2]]].
      * rewrite E1 in P2.
        destruct (caminho_ate_prefixo _ _ _ P1 _ _ P2) as [-> <-].
        simpl in E2. subst s2. f_equal. eapply IH; eauto.
      * rewrite E1 in P1.
        destruct (caminho_ate_prefixo _ _ _ P2 _ _ P1) as [-> <-].
        simpl in E2. subst s1. f_equal. eapply IH; eauto.
Qed.

(** X18: the bit string of [compactar] tells the inputs apart.  With the
    codes [gerar_codigos] derives from a frequency table, two byte
    sequences whose codes concatenate to the same bit string are the same
    sequence. *)
Theorem codificar_injetiva (t : dict Z) (cod : dict (list ascii))
  (B1 B2 : list byte) (bits : list ascii) :
  fst (gerar_codigos (set_tabela_freq t novo)) = Ok cod ->
  codificar cod B1 = Ok bits ->
  codificar cod B2 = Ok bits ->
  B1 = B2.
Proof.
  intros HG H1 H2.
  destruct t as [|kv t'].
  - discriminate HG.
  - destruct (arvore_de_correta (kv :: t')) as (fr & e & d & HA & _);
      [discriminate|].
    rewrite (gerar_codigos_tabela _ _ HA) in HG. injection HG as <-.
    exact (codificar_caminhos_inj (mkNo fr None e d) _ eq_refl
             (codigos_sao_caminhos fr e d) B1 B2 bits H1 H2).
Qed.

Lemma codificar_injetiva_witness :
  fst (gerar_codigos (set_tabela_freq [(x61, 3); (x62, 2); (x63, 1)] novo))
  = Ok [(x61, ["0"]); (x63, ["1"; "0"]); (x62, ["1"; "1"])]
  /\ codificar [(x61, ["0"]); (x63, ["1"; "0"]); (x62, ["1"; "1"])]
       [x63; x61; x62]
     = Ok ["1"; "0"; "0"; "1"; "1"]
  /\ [x63; x61; x62] = [x63; x61; x62].
Proof.
  assert (G : fst (gerar_codigos
                     (set_tabela_freq [(x61, 3); (x62, 2); (x63, 1)] novo))
              = Ok [(x61, ["0"]); (x63, ["1"; "0"]); (x62, ["1"; "1"])])
    by reflexivity.
  assert (K : codificar [(x61, ["0"]); (x63, ["1"; "0"]); (x62, ["1"; "1"])]
                [x63; x61; x62]
              = Ok ["1"; "0"; "0"; "1"; "1"])
    by reflexivity.
  split; [exact G|]. split; [exact K|].
  exact (codificar_injetiva _ _ _ _ _ G K K).
Defined.

(** The walk of the tree of one symbol: every ["0"] emits the symbol, any
    other bit leads to the absent right child. *)
Lemma percorrer_um_simbolo (f f' : Z) (s : byte) (total : Z) :
  forall bits emitidos,
    Z.of_nat (length emitidos) < total ->
    percorrer (mkNo f None (Some (mkNo f' (Some s) None None)) None) total
              bits
              (mkNo f None (Some (mkNo f' (Some s) None None)) None) emitidos
    = if forallb (fun bit => Ascii.eqb bit "0")
                 (firstn (Z.to_nat total - length emitidos) bits)
      then Ok (emitidos
                 ++ repeat s (length (firstn (Z.to_nat total - length emitidos)
                                             bits)))
      else Erro NavegacaoInvalida.
Proof.
  induction bits as [|bit r IH]; intros emitidos L.
  - rewrite firstn_nil. simpl. now rewrite app_nil_r.
  - destruct (Z.to_nat total - length emitidos)%nat as [|k] eqn:K; [lia|].
    cbn [firstn forallb percorrer esquerdo direito simbolo].
    destruct (Ascii.eqb bit "0").
    + cbn [andb length repeat esquerdo direito simbolo].
      destruct (Z.eqb_spec (Z.of_nat (length (emitidos ++ [s]))) total)
        as [T|T].
      * rewrite length_app in T. simpl in T.
        assert (k = 0)%nat as -> by lia. reflexivity.
      * rewrite length_app in T. simpl in T.
        rewrite IH by (rewrite length_app; simpl; lia).
        rewrite length_app. simpl length.
        replace (Z.to_nat total - (length emitidos + 1))%nat with k by lia.
        destruct (forallb (fun bit0 => Ascii.eqb bit0 "0") (firstn k r));
          [|reflexivity].
        now rewrite <- app_assoc.
    + reflexivity.
Qed.

(** X19: decoding with one symbol in the table.  The tree is the symbol's
    leaf under a parent with no right child, so the payload is only
    counted: with a frequency [f >= 1], decoding looks at the first [f]
    bits left after the padding is dropped, returns one copy of the symbol
    for each of them when they are all ["0"], and raises the navigation
    error when one of them is not. *)
Theorem descompactar_um_simbolo (huff : list byte) (s : byte) (f p : Z)
  (dados : list byte) :
  ler_cabecalho huff = (Ok ([(s, f)], p), dados) ->
  1 <= f ->
  dados <> [] ->
  reconstruir huff
  = if forallb (fun bit => Ascii.eqb bit "0")
               (firstn (Z.to_nat f) (aparar (_bytes_para_bits dados) p))
    then Ok (repeat s (length (firstn (Z.to_nat f)
                                      (aparar (_bytes_para_bits dados) p))))
    else Erro NavegacaoInvalida.
Proof.
  intros HL F D. rewrite (reconstruir_passos _ _ _ _ HL).
  assert (LD : (length dados =? 0)%nat = false).
  { apply Nat.eqb_neq. destruct dados; [contradiction | discriminate]. }
  rewrite LD. simpl andb. cbv iota.
  change (arvore_de [(s, f)])
    with (Ok (mkNo f None (Some (mkNo f (Some s) None None)) None)).
  cbv iota beta.
  change (soma (dict_values [(s, f)])) with (0 + f).
  rewrite Z.add_0_l.
  rewrite percorrer_um_simbolo by (simpl; lia).
  simpl length. rewrite Nat.sub_0_r. reflexivity.
Qed.

Lemma descompactar_um_simbolo_witness :
  ler_cabecalho [x48; x55; x46; x31; x00; x00; x00; x01; x61; x00; x00; x00;
                 x03; x05; x00]
  = (Ok ([(x61, 3)], 5), [x00])
  /\ 1 <= 3
  /\ [x00] <> []
  /\ reconstruir [x48; x55; x46; x31; x00; x00; x00; x01; x61; x00; x00; x00;
                  x03; x05; x00]
     = Ok [x61; x61; x61].
Proof.
  assert (H : ler_cabecalho [x48; x55; x46; x31; x00; x00; x00; x01; x61;
                             x00; x00; x00; x03; x05; x00]
              = (Ok ([(x61, 3)], 5), [x00]))
    by reflexivity.
  assert (F : 1 <= 3) by lia.
  assert (D : [x00] <> []) by discriminate.
  split; [exact H|]. split; [exact F|]. split; [exact D|].
  exact (descompactar_um_simbolo _ x61 3 5 [x00] H F D).
Defined.

(** X20: before a file is loaded.  On an object that holds no bytes,
    [gerar_tabela_frequencia] and [compactar] raise the no-file error, and
    so do [construir_arvore] when no table is cached and [gerar_codigos]
    when no table and no root are: the error of the innermost step comes
    out, the object is left as it was and [compactar] does not open the
    output path. *)
Theorem sem_arquivo_carregado (h : Huffman) (saida : arquivo) :
  bytes_dados h = None ->
  gerar_tabela_frequencia h = (Erro NenhumArquivoCarregado, h)
  /\ compactar (h, saida) = (Erro NenhumArquivoCarregado, (h, saida))
  /\ (tabela_freq h = None ->
      construir_arvore h = (Erro NenhumArquivoCarregado, h))
  /\ (tabela_freq h = None -> raiz h = None ->
      gerar_codigos h = (Erro NenhumArquivoCarregado, h)).
Proof.
  intros N. destruct h as [bd tf rz cd]. simpl in N. subst bd.
  repeat split.
  - simpl. intros ->. reflexivity.
  - simpl. intros -> ->. reflexivity.
Qed.

Lemma sem_arquivo_carregado_witness :
  bytes_dados novo = None
  /\ gerar_tabela_frequencia novo = (Erro NenhumArquivoCarregado, novo)
  /\ compactar (novo, Some [x61]) = (Erro NenhumArquivoCarregado,
                                     (novo, Some [x61]))
  /\ (tabela_freq novo = None ->
      construir_arvore novo = (Erro NenhumArquivoCarregado, novo))
  /\ (tabela_freq novo = None -> raiz novo = None ->
      gerar_codigos novo = (Erro NenhumArquivoCarregado, novo)).
Proof.
  split; [reflexivity|].
  exact (sem_arquivo_carregado novo (Some [x61]) eq_refl).
Defined.
